(** * cellaut: a shallow embedding of main.go

    The Go program runs one goroutine per cell (GooCellAut.Start) plus the
    goroutine that calls Ticker.Tick.  Cells talk over buffered channels of
    capacity one, the ticker hands the tick signal over unbuffered channels,
    and a sync.WaitGroup counts outstanding work.

    The embedding is an executable interleaving semantics: a system state
    holds the heap of automata, the heap of channels, the ticker and one
    program counter per goroutine; [step] executes one atomic action of one
    goroutine and [run] executes a schedule. *)

From stdpp Require Import gmap strings list fin_maps.
From Stdlib Require Import ZArith Lia.

Local Open Scope Z_scope.

(** ** Direction indices (type NeighborIndex uint8) *)

Abbreviation NeighborIndex := Z (only parsing).
Abbreviation State := string (only parsing).
(** A channel is identified by its position in the heap of channels. *)
Abbreviation chan := nat (only parsing).

Definition uint8 (z : Z) : Z := z mod 256.

Definition NeighborUp : NeighborIndex := 0.
Definition NeighborRt : NeighborIndex := 1.
Definition NeighborDn : NeighborIndex := 255.
Definition NeighborLf : NeighborIndex := 254.

(** [func (i NeighborIndex) Recip() NeighborIndex { return ^i }] *)
Definition Recip (i : NeighborIndex) : NeighborIndex := uint8 (Z.lnot i).

Definition is_uint8 (i : Z) : Prop := 0 <= i < 256.

(** ** Automata and the wiring heap *)

(** The two map fields are Go maps: [None] is the nil map of a zero-valued
    struct, on which an assignment panics. *)
Record GooCellAut := mkGoo {
  ID : Z;
  newState : State;
  state : State;
  toNeighbors : option (gmap Z nat);
  fromNeighbors : option (gmap Z nat)
}.

(** [auts] is the heap of automata (a *GooCellAut is an index into it),
    [chans] the heap of [chan State] values with their queued messages. *)
Record World := mkWorld {
  auts : list GooCellAut;
  chans : list (list State)
}.

Definition empty_world : World := mkWorld [] [].

(** [m[k] = v]; assignment to an entry of a nil map panics. *)
Definition map_assign (m : option (gmap Z nat)) (k : Z) (v : nat)
  : option (gmap Z nat) :=
  match m with
  | Some g => Some (<[k:=v]> g)
  | None => None
  end.

(** [m[k]] read: the nil channel ([None]) when the key is missing or the
    map is nil. *)
Definition map_read (m : option (gmap Z nat)) (k : Z) : option nat :=
  match m with
  | Some g => g !! k
  | None => None
  end.

(** Keys visited by [for _, ch := range m]. *)
Definition map_keys (m : option (gmap Z nat)) : gset Z :=
  match m with
  | Some g => dom g
  | None => ∅
  end.

Definition NewGooCellAut (i : Z) : GooCellAut :=
  mkGoo i "" "" (Some ∅) (Some ∅).

(** Allocation of the pointer returned by NewGooCellAut. *)
Definition new_aut (i : Z) (w : World) : nat * World :=
  (length (auts w), mkWorld (auts w ++ [NewGooCellAut i]) (chans w)).

Definition set_to (c : GooCellAut) (m : gmap Z nat) : GooCellAut :=
  mkGoo (ID c) (newState c) (state c) (Some m) (fromNeighbors c).
Definition set_from (c : GooCellAut) (m : gmap Z nat) : GooCellAut :=
  mkGoo (ID c) (newState c) (state c) (toNeighbors c) (Some m).
Definition set_newState (c : GooCellAut) (v : State) : GooCellAut :=
  mkGoo (ID c) v (state c) (toNeighbors c) (fromNeighbors c).
Definition set_state (c : GooCellAut) (v : State) : GooCellAut :=
  mkGoo (ID c) (newState c) v (toNeighbors c) (fromNeighbors c).

(** [(aut *GooCellAut) Channels(recipIndex)]: two fresh channels stored
    under [recipIndex.Recip()]; returns [(to, from)] for the caller, that is
    our from-channel first and our to-channel second.  [None] is a panic. *)
Definition Channels (recipIndex : NeighborIndex) (a : nat) (w : World)
  : option (chan * chan * World) :=
  c ← auts w !! a;
  let neighborIndex := Recip recipIndex in
  let c_to := length (chans w) in
  t ← map_assign (toNeighbors c) neighborIndex c_to;
  let c_from := S c_to in
  f ← map_assign (fromNeighbors c) neighborIndex c_from;
  let c' := set_from (set_to c t) f in
  Some (c_from, c_to,
        mkWorld (<[a:=c']> (auts w)) (chans w ++ [[]; []])).

(** [(aut *GooCellAut) AddNeighbor(i, neighbor)]. *)
Definition AddNeighbor (i : NeighborIndex) (a b : nat) (w : World)
  : option World :=
  '(toNeighbor, fromNeighbor, w1) ← Channels i b w;
  c ← auts w1 !! a;
  t ← map_assign (toNeighbors c) i toNeighbor;
  f ← map_assign (fromNeighbors c) i fromNeighbor;
  Some (mkWorld (<[a:=set_from (set_to c t) f]> (auts w1)) (chans w1)).

(** [(aut *GooCellAut) SetState(newState)] *)
Definition SetState (v : State) (a : nat) (w : World) : option World :=
  c ← auts w !! a;
  Some (mkWorld (<[a:=set_newState c v]> (auts w)) (chans w)).

(** [(aut *GooCellAut) GetState()] *)
Definition GetState (a : nat) (w : World) : option State :=
  state <$> auts w !! a.

(** A slot is populated when either table of the automaton has the key. *)
Definition populated (w : World) (a : nat) (d : NeighborIndex) : Prop :=
  exists c, auts w !! a = Some c /\
    (is_Some (map_read (toNeighbors c) d) \/
     is_Some (map_read (fromNeighbors c) d)).

(** An automaton on which NewGooCellAut's promise holds: both maps exist. *)
Definition initialized (w : World) (a : nat) : Prop :=
  exists c, auts w !! a = Some c /\
    is_Some (toNeighbors c) /\ is_Some (fromNeighbors c).

(** Every channel mentioned by an automaton has been made. *)
Definition chans_allocated (w : World) : Prop :=
  forall a c d ch, auts w !! a = Some c ->
    (map_read (toNeighbors c) d = Some ch \/
     map_read (fromNeighbors c) d = Some ch) ->
    (ch < length (chans w))%nat.

(** ** Goroutines, the ticker and the system state *)

(** Program counter of one [Start] goroutine.
    - [AtSelect]: blocked in the [select];
    - [GotTick]: the [case <-tick] was taken, the comparison comes next;
    - [Propagating pending cur]: past the comparison.  [pending] are the
      keys of [toNeighbors] the range loop has not visited yet; [cur] is the
      channel of the current iteration once [StateSent] has run and the
      send is still to come.  [Propagating ∅ None] is the point just before
      [AllStatesSent] (reached directly when the states were equal);
    - [AfterRecv]: a neighbour's state was received and stored, the call of
      [StateReceived] comes next;
    - [Returned]: the [case <-done] was taken. *)
Inductive PC :=
| AtSelect
| GotTick
| Propagating (pending : gset Z) (cur : option nat)
| AfterRecv
| Returned.

(** One [go aut.Start(tick, done, stateLedger, callbacks)]: the automaton
    and the tick channel it listens on. *)
Record Proc := mkProc {
  p_aut : nat;
  p_tick : nat;
  p_pc : PC
}.

(** [type Ticker struct]; [waitGroup] is the counter of the
    sync.WaitGroup. *)
Record Ticker := mkTicker {
  tickID : Z;
  destinations : list nat;
  waitGroup : Z
}.

(** Where the goroutine that drives the ticker stands: outside [Tick],
    about to send to [destinations[k]], or inside [waitGroup.Wait()]. *)
Inductive TPC :=
| TIdle
| TDispatch (k : nat)
| TWait.

Record Sys := mkSys {
  world : World;
  ticker : Ticker;
  tpc : TPC;
  procs : list Proc;
  done_closed : bool;
  crashed : bool
}.

Definition int64 (z : Z) : Z := (z + 2 ^ 63) mod 2 ^ 64 - 2 ^ 63.

(** [(ticker *Ticker) TickChan()] *)
Definition TickChan (t : Ticker) : nat * Ticker :=
  let newChan := length (destinations t) in
  (newChan, mkTicker (tickID t) (destinations t ++ [newChan]) (waitGroup t)).

Definition with_world (s : Sys) (w : World) : Sys :=
  mkSys w (ticker s) (tpc s) (procs s) (done_closed s) (crashed s).
Definition with_tpc (s : Sys) (t : TPC) : Sys :=
  mkSys (world s) (ticker s) t (procs s) (done_closed s) (crashed s).
Definition with_ticker (s : Sys) (t : Ticker) : Sys :=
  mkSys (world s) t (tpc s) (procs s) (done_closed s) (crashed s).
Definition with_pc (s : Sys) (p : nat) (pc : PC) : Sys :=
  mkSys (world s) (ticker s) (tpc s)
        (alter (fun pr => mkProc (p_aut pr) (p_tick pr) pc) p (procs s))
        (done_closed s) (crashed s).

(** [WaitGroup.Add(delta)]; a counter driven below zero panics. *)
Definition wg_add (delta : Z) (s : Sys) : Sys :=
  let n := waitGroup (ticker s) + delta in
  if decide (n < 0)
  then mkSys (world s) (ticker s) (tpc s) (procs s) (done_closed s) true
  else with_ticker s (mkTicker (tickID (ticker s)) (destinations (ticker s)) n).

(** Position of the ticker after [k] destinations have been served. *)
Definition after_dispatch (t : Ticker) (k : nat) : TPC :=
  if decide (k < length (destinations t))%nat then TDispatch k else TWait.

Definition set_aut (s : Sys) (a : nat) (c : GooCellAut) : Sys :=
  with_world s (mkWorld (<[a:=c]> (auts (world s))) (chans (world s))).
Definition set_chan (s : Sys) (ch : nat) (q : list State) : Sys :=
  with_world s (mkWorld (auts (world s)) (<[ch:=q]> (chans (world s)))).

(** The four receive cases of the [select]. *)
Definition select_dirs : list Z :=
  [NeighborUp; NeighborRt; NeighborDn; NeighborLf].

(** Atomic actions.  [M*] are performed by the goroutine that owns the
    ticker (the test body), [T*] by the same goroutine inside [Tick], [P*]
    by the [Start] goroutine with the given index. *)
Inductive Action :=
| MTick
| MSetState (a : nat) (v : State)
| MCloseDone
| TSend (p : nat)
| TWake
| PReact (p : nat)
| PAdd (p : nat) (d : Z)
| PPut (p : nat)
| PAllSent (p : nat)
| PRecv (p : nat) (d : Z)
| PRecvDone (p : nat)
| PDone (p : nat).

Definition guard (b : bool) : option unit := if b then Some tt else None.

Definition is_idle (t : TPC) : bool :=
  match t with TIdle => true | _ => false end.

(** One atomic action; [None] when the action is not enabled (the goroutine
    is elsewhere or blocked).  The test body is one goroutine, so its calls
    of SetState and close(done) happen outside [Tick] only.  The maps of an
    automaton are not written by any action, so reading them at the receive
    or at the loop iteration gives what the select or the range statement
    saw. *)
Definition step (a : Action) (s : Sys) : option Sys :=
  _ ← guard (negb (crashed s));
  match a with
  | MTick =>
      (* ticker.waitGroup.Add(len(ticker.destinations)) *)
      _ ← guard (is_idle (tpc s));
      let s1 := wg_add (Z.of_nat (length (destinations (ticker s)))) s in
      Some (with_tpc s1 (after_dispatch (ticker s) 0))
  | MSetState a v =>
      _ ← guard (is_idle (tpc s));
      w ← SetState v a (world s);
      Some (with_world s w)
  | MCloseDone =>
      (* close(done); closing a closed channel panics *)
      _ ← guard (is_idle (tpc s));
      Some (mkSys (world s) (ticker s) (tpc s) (procs s) true
                  (done_closed s))
  | TSend p =>
      (* dest <- ticker.tickID, met by the [case <-tick] of [p] *)
      match tpc s with
      | TDispatch k =>
          dest ← destinations (ticker s) !! k;
          pr ← procs s !! p;
          _ ← guard (bool_decide (p_tick pr = dest));
          match p_pc pr with
          | AtSelect =>
              Some (with_tpc (with_pc s p GotTick)
                             (after_dispatch (ticker s) (S k)))
          | _ => None
          end
      | _ => None
      end
  | TWake =>
      (* ticker.waitGroup.Wait() returns; ticker.tickID++ *)
      match tpc s with
      | TWait =>
          _ ← guard (bool_decide (waitGroup (ticker s) = 0));
          let t := ticker s in
          Some (with_tpc
                  (with_ticker s (mkTicker (int64 (tickID t + 1))
                                           (destinations t) (waitGroup t)))
                  TIdle)
      | _ => None
      end
  | PReact p =>
      pr ← procs s !! p;
      c ← auts (world s) !! p_aut pr;
      match p_pc pr with
      | GotTick =>
          if bool_decide (newState c = state c)
          then Some (with_pc s p (Propagating ∅ None))
          else Some (with_pc (set_aut s (p_aut pr) (set_state c (newState c)))
                             p (Propagating (map_keys (toNeighbors c)) None))
      | _ => None
      end
  | PAdd p d =>
      (* next iteration of the range loop: callbacks.StateSent() *)
      pr ← procs s !! p;
      c ← auts (world s) !! p_aut pr;
      match p_pc pr with
      | Propagating pending None =>
          _ ← guard (bool_decide (d ∈ pending));
          ch ← map_read (toNeighbors c) d;
          Some (with_pc (wg_add 1 s) p
                        (Propagating (pending ∖ {[d]}) (Some ch)))
      | _ => None
      end
  | PPut p =>
      (* ch <- aut.state on a channel of capacity one *)
      pr ← procs s !! p;
      c ← auts (world s) !! p_aut pr;
      match p_pc pr with
      | Propagating pending (Some ch) =>
          q ← chans (world s) !! ch;
          _ ← guard (bool_decide (length q < 1)%nat);
          Some (with_pc (set_chan s ch (q ++ [state c])) p
                        (Propagating pending None))
      | _ => None
      end
  | PAllSent p =>
      (* callbacks.AllStatesSent() *)
      pr ← procs s !! p;
      match p_pc pr with
      | Propagating pending None =>
          _ ← guard (bool_decide (pending = ∅));
          Some (with_pc (wg_add (-1) s) p AtSelect)
      | _ => None
      end
  | PRecv p d =>
      (* case neighborState = <-aut.fromNeighbors[d]: aut.SetState(...) *)
      pr ← procs s !! p;
      c ← auts (world s) !! p_aut pr;
      match p_pc pr with
      | AtSelect =>
          _ ← guard (bool_decide (d ∈ select_dirs));
          ch ← map_read (fromNeighbors c) d;
          q ← chans (world s) !! ch;
          match q with
          | v :: q' =>
              Some (with_pc (set_aut (set_chan s ch q') (p_aut pr)
                                     (set_newState c v))
                            p AfterRecv)
          | [] => None
          end
      | _ => None
      end
  | PRecvDone p =>
      (* callbacks.StateReceived() *)
      pr ← procs s !! p;
      match p_pc pr with
      | AfterRecv => Some (with_pc (wg_add (-1) s) p AtSelect)
      | _ => None
      end
  | PDone p =>
      (* case <-done: return *)
      pr ← procs s !! p;
      match p_pc pr with
      | AtSelect =>
          _ ← guard (done_closed s);
          Some (with_pc s p Returned)
      | _ => None
      end
  end.

(** A schedule executed from left to right. *)
Fixpoint run (sched : list Action) (s : Sys) : option Sys :=
  match sched with
  | [] => Some s
  | a :: rest => s' ← step a s; run rest s'
  end.

(** ** Starting the goroutines, as the test does *)

(** [go aut.Start(tickChan, done, stateLedger, callbacks)] *)
Definition go_Start (a tick : nat) (s : Sys) : Sys :=
  mkSys (world s) (ticker s) (tpc s) (procs s ++ [mkProc a tick AtSelect])
        (done_closed s) (crashed s).

(** [for _, aut := range auts { tickChan := ticker.TickChan(); go aut.Start(...) }] *)
Definition start_all (autl : list nat) (s : Sys) : Sys :=
  foldl (fun s a =>
           let '(tickChan, t) := TickChan (ticker s) in
           go_Start a tickChan (with_ticker s t)) s autl.

(** [ticker := &Ticker{}] over a wired world, then every automaton started. *)
Definition launch (w : World) : Sys :=
  start_all (seq 0 (length (auts w)))
            (mkSys w (mkTicker 0 [] 0) TIdle [] false false).

(** ** Wiring scripts and the systems they lead to *)

(** What a test body may do before it starts the goroutines. *)
Inductive WireOp :=
| WNew (i : Z)
| WAdd (d : Z) (a b : nat)
| WSet (a : nat) (v : State).

Definition wire_op (op : WireOp) (w : World) : option World :=
  match op with
  | WNew i => Some (snd (new_aut i w))
  | WAdd d a b => AddNeighbor d a b w
  | WSet a v => SetState v a w
  end.

Fixpoint wire (ops : list WireOp) (w : World) : option World :=
  match ops with
  | [] => Some w
  | op :: rest => w' ← wire_op op w; wire rest w'
  end.

(** A system some wiring script and some schedule lead to. *)
Definition reachable (s : Sys) : Prop :=
  exists ops w sched,
    wire ops empty_world = Some w /\ run sched (launch w) = Some s.

(** ** The test file: concatStates and the row of five *)

(** [concatStates]: the empty state is shown as "-". *)
Definition show_state (v : State) : string :=
  if bool_decide (v = "") then "-" else v.

Definition concatStates (w : World) : string :=
  foldl (fun rslt c => rslt +:+ show_state (state c)) "" (auts w).

(** The calls of TestGooCellAut before the goroutines are started, in the
    order of the test. *)
Definition linear_script : list WireOp :=
  [WNew 0; WNew 1; WNew 2; WNew 3; WNew 4;
   WAdd NeighborRt 0 1; WAdd NeighborLf 1 0;
   WAdd NeighborRt 1 2; WAdd NeighborLf 2 1;
   WAdd NeighborRt 2 3; WSet 2 "X";
   WAdd NeighborLf 3 2; WAdd NeighborRt 3 4; WAdd NeighborLf 4 3].

Definition linear_world : option World := wire linear_script empty_world.

Definition linear_sys : option Sys := launch <$> linear_world.

(** Schedule fragments.  [dispatch n]: the ticker serves goroutines
    [0 .. n-1] in turn.  [quiet p]: goroutine [p], holding the tick, finds
    nothing to send.  [spread p dirs]: it commits and sends in the order
    [dirs].  [recv p d]: it takes a neighbour's state. *)
Definition dispatch (n : nat) : list Action := TSend <$> seq 0 n.
Definition quiet (p : nat) : list Action := [PReact p; PAllSent p].
Definition spread (p : nat) (dirs : list Z) : list Action :=
  [PReact p] ++ flat_map (fun d => [PAdd p d; PPut p]) dirs ++ [PAllSent p].
Definition recv (p : nat) (d : Z) : list Action := [PRecv p d; PRecvDone p].

(** What AddNeighbor leaves behind when both automata are initialized:
    [n], [n+1] are the channels made by the neighbour's Channels. *)
Definition rewired (i : Z) (a b : nat) (w : World) (w' : World) : Prop :=
  let n := length (chans w) in
  chans w' = chans w ++ [[]; []] /\
  length (auts w') = length (auts w) /\
  (forall x, x <> a -> x <> b -> auts w' !! x = auts w !! x) /\
  exists ca cb ca' cb',
    auts w !! a = Some ca /\ auts w !! b = Some cb /\
    auts w' !! a = Some ca' /\ auts w' !! b = Some cb' /\
    (forall k,
       map_read (toNeighbors ca') k =
         if decide (k = i) then Some (S n)
         else if decide (a = b /\ k = Recip i) then Some n
         else map_read (toNeighbors ca) k) /\
    (forall k,
       map_read (fromNeighbors ca') k =
         if decide (k = i) then Some n
         else if decide (a = b /\ k = Recip i) then Some (S n)
         else map_read (fromNeighbors ca) k) /\
    (forall k,
       map_read (toNeighbors cb') k =
         if decide (a = b /\ k = i) then Some (S n)
         else if decide (k = Recip i) then Some n
         else map_read (toNeighbors cb) k) /\
    (forall k,
       map_read (fromNeighbors cb') k =
         if decide (a = b /\ k = i) then Some n
         else if decide (k = Recip i) then Some (S n)
         else map_read (fromNeighbors cb) k) /\
    state ca' = state ca /\ newState ca' = newState ca /\
    state cb' = state cb /\ newState cb' = newState cb.

(** Case analysis on a slot lookup after the nested map updates. *)
Ltac slot_cases :=
  let k := fresh "k" in
  intros k; simpl;
  repeat match goal with H : _ = Some _ |- _ => rewrite H end; simpl;
  repeat case_decide;
  repeat match goal with
         | H : _ /\ _ |- _ => destruct H
         | H : ~ (?x = ?x /\ ?P) |- _ =>
             assert (~ P) by (let X := fresh in intros X; apply H; done);
             clear H
         end;
  subst; simplify_map_eq; done.

(** Two fresh automata, and the same two after the first wiring call of the
    test, [auts[0].AddNeighbor(NeighborRt, auts[1])]. *)
Definition pair_world : World :=
  snd (new_aut 1 (snd (new_aut 0 empty_world))).

Definition once_wired : World :=
  default empty_world (AddNeighbor NeighborRt 0 1 pair_world).

(** ** Projections of the state updates *)

Definition pc_of (s : Sys) (p : nat) : option PC := p_pc <$> procs s !! p.

(** The goroutine that performs an action ([None]: the ticker's owner). *)
Definition actor (a : Action) : option nat :=
  match a with
  | MTick | MSetState _ _ | MCloseDone | TSend _ | TWake => None
  | PReact p | PAdd p _ | PPut p | PAllSent p | PRecv p _
  | PRecvDone p | PDone p => Some p
  end.

(** The channels after the range loop has sent [v] on the links of the
    directions [dirs], in that order. *)
Fixpoint deliveries (tos : option (gmap Z nat)) (v : State) (dirs : list Z)
    (chs : list (list State)) : list (list State) :=
  match dirs with
  | [] => chs
  | d :: rest =>
      deliveries tos v rest
        (match map_read tos d with
         | Some ch => alter (fun q => q ++ [v]) ch chs
         | None => chs
         end)
  end.

(** The outgoing links of the directions [dirs] are distinct channels with
    an empty buffer. *)
Definition links_free (tos : option (gmap Z nat)) (dirs : list Z)
    (chs : list (list State)) : Prop :=
  (forall d, d ∈ dirs ->
     exists ch, map_read tos d = Some ch /\ chs !! ch = Some []) /\
  (forall d1 d2 ch, d1 ∈ dirs -> d2 ∈ dirs ->
     map_read tos d1 = Some ch -> map_read tos d2 = Some ch -> d1 = d2).

(** The row of five of the test after the first [Tick] has handed the tick
    signal to all five goroutines. *)
Definition linear_dispatched : Sys :=
  default (launch empty_world)
          (s ← linear_sys; run ([MTick] ++ dispatch 5) s).

(** The middle automaton of the row once the first tick is dispatched. *)
Definition linear_middle : GooCellAut :=
  mkGoo 2 "X" ""
        (Some (<[NeighborLf:=7%nat]> (<[NeighborRt:=10%nat]> ∅)))
        (Some (<[NeighborLf:=6%nat]> (<[NeighborRt:=11%nat]> ∅))).

(** Unfolds one [step] in a hypothesis and splits it into its enabled
    cases. *)
Ltac step_cases H :=
  unfold step, guard in H;
  repeat (simplify_option_eq || case_match);
  simplify_eq.

(** The row of five during the first tick, once the middle automaton has
    sent "X" both ways and its left neighbour is back in its select. *)
Definition linear_sent : Sys :=
  default (launch empty_world)
          (run (quiet 0 ++ quiet 1 ++ spread 2 [NeighborLf; NeighborRt])
               linear_dispatched).

(** ** The row of five under two schedules *)

(** First tick, every goroutine reacting to its tick signal before it takes
    a neighbour's state. *)
Definition tick1_settled : list Action :=
  [MTick] ++ dispatch 5 ++ quiet 0 ++ quiet 1
    ++ spread 2 [NeighborLf; NeighborRt] ++ quiet 3 ++ quiet 4
    ++ recv 1 NeighborRt ++ recv 3 NeighborLf ++ [TWake].

(** First tick, the middle automaton's state reaching automaton 3 before
    the ticker's hand-off does: goroutine 3 takes the neighbour's state in
    its select, then the tick signal, and propagates in the same tick. *)
Definition tick1_raced : list Action :=
  [MTick] ++ dispatch 3 ++ quiet 0 ++ quiet 1
    ++ spread 2 [NeighborLf; NeighborRt]
    ++ recv 1 NeighborRt ++ recv 3 NeighborLf
    ++ [TSend 3; TSend 4]
    ++ spread 3 [NeighborLf; NeighborRt] ++ quiet 4
    ++ recv 2 NeighborRt ++ recv 4 NeighborLf ++ [TWake].

Definition tick2_settled : list Action :=
  [MTick] ++ dispatch 5 ++ quiet 0 ++ spread 1 [NeighborLf; NeighborRt]
    ++ quiet 2 ++ spread 3 [NeighborLf; NeighborRt] ++ quiet 4
    ++ recv 0 NeighborRt ++ recv 2 NeighborLf ++ recv 2 NeighborRt
    ++ recv 4 NeighborLf ++ [TWake].

Definition tick3_settled : list Action :=
  [MTick] ++ dispatch 5 ++ spread 0 [NeighborRt] ++ quiet 1 ++ quiet 2
    ++ quiet 3 ++ spread 4 [NeighborLf]
    ++ recv 1 NeighborLf ++ recv 3 NeighborRt ++ [TWake].

Definition tick_steady : list Action :=
  [MTick] ++ dispatch 5 ++ quiet 0 ++ quiet 1 ++ quiet 2 ++ quiet 3
    ++ quiet 4 ++ [TWake].

(** The calls made by the test body in a schedule: everything that is not
    an action inside [Tick] or of a [Start] goroutine. *)
Definition external (a : Action) : bool :=
  match a with
  | MTick | MSetState _ _ | MCloseDone => true
  | _ => false
  end.

Definition externals (sched : list Action) : list Action :=
  filter (fun a => external a = true) sched.

(** Settlement determinism as the specification words it: same wiring,
    same external calls, [Tick] returned in both runs, hence the same
    committed state in every automaton. *)
Definition settlement_deterministic : Prop :=
  forall ops w sched1 sched2 s1 s2,
    wire ops empty_world = Some w ->
    externals sched1 = externals sched2 ->
    run sched1 (launch w) = Some s1 ->
    run sched2 (launch w) = Some s2 ->
    tpc s1 = TIdle -> tpc s2 = TIdle ->
    forall a, GetState a (world s1) = GetState a (world s2).

(** What the test observes after a schedule: the string of states once
    [Tick] has returned. *)
Definition observe (sched : list Action) : option (string * Z * TPC) :=
  s ← linear_sys;
  s' ← run sched s;
  Some (concatStates (world s'), tickID (ticker s'), tpc s').

(** ** A goroutine that has returned and a later Tick *)

(** One automaton, started, then [close(done)] seen by its goroutine, then
    [Tick] called. *)
Definition stalled_sys : Sys :=
  default (launch empty_world)
          (run [MCloseDone; PDone 0; MTick]
               (launch (snd (new_aut 0 empty_world)))).

(** The ticker waits at [destinations[k]] and every goroutine listening on
    that channel has returned. *)
Definition stalled (s : Sys) (k : nat) : Prop :=
  tpc s = TDispatch k /\
  exists dest, destinations (ticker s) !! k = Some dest /\
    forall p pr, procs s !! p = Some pr -> p_tick pr = dest ->
                 p_pc pr = Returned.

(** ** Accounting of the WaitGroup counter *)

(** Credits a goroutine holds at a program point: its own "done" credit
    from the tick signal until AllStatesSent, one more between StateSent
    and the send, and the credit of a received state until
    StateReceived. *)
Definition pc_credit (pc : PC) : Z :=
  match pc with
  | AtSelect | Returned => 0
  | GotTick | AfterRecv | Propagating _ None => 1
  | Propagating _ (Some _) => 2
  end.

(** Destinations the ticker has added to the counter and not served yet. *)
Definition undispatched (t : Ticker) (tp : TPC) : Z :=
  match tp with
  | TDispatch k => Z.of_nat (length (destinations t)) - Z.of_nat k
  | _ => 0
  end.

Definition owed (l : list Proc) : Z :=
  foldr (fun pr n => pc_credit (p_pc pr) + n) 0 l.

Definition in_flight (l : list (list State)) : Z :=
  foldr (fun q n => Z.of_nat (length q) + n) 0 l.

Definition credits (s : Sys) : Z :=
  undispatched (ticker s) (tpc s) + owed (procs s)
    + in_flight (chans (world s)).

(** The invariant of a system that has not panicked: the counter equals
    the outstanding credits, the ticker's index is in range while it
    dispatches, and the counter is zero outside [Tick]. *)
Definition balanced (s : Sys) : Prop :=
  crashed s = false ->
  waitGroup (ticker s) = credits s /\
  (forall k, tpc s = TDispatch k ->
             (k < length (destinations (ticker s)))%nat) /\
  (tpc s = TIdle -> waitGroup (ticker s) = 0).

Ltac name_step_hyps :=
  try match goal with H : procs _ !! _ = Some _ |- _ => rename H into Hp end;
  try match goal with H : p_pc _ = _ |- _ => rename H into Hpc end;
  try match goal with H : chans _ !! _ = Some _ |- _ => rename H into Hq end.

(** ** The ticker *)

#[global] Instance Action_eq_dec : EqDecision Action.
Proof. solve_decision. Defined.


(** Every goroutine is in its select or has returned, and no channel holds
    a message. *)
Definition settled (s : Sys) : Prop :=
  (forall p pr, procs s !! p = Some pr ->
                p_pc pr = AtSelect \/ p_pc pr = Returned) /\
  (forall ch q, chans (world s) !! ch = Some q -> q = []).

(** The actions of the ticker's owner in a schedule. *)
Definition owner_actions (sched : list Action) : list Action :=
  filter (fun a => actor a = None) sched.

(** The wired row of five before the goroutines are started. *)
Definition linear_wired : World := default empty_world linear_world.

(** ** Worlds built by wiring *)

(** What every world made by NewGooCellAut, AddNeighbor and SetState
    satisfies: all automata have their two maps, every channel in a slot
    has been made, and no channel holds a message. *)
Definition well_wired (w : World) : Prop :=
  (forall a, (a < length (auts w))%nat -> initialized w a) /\
  chans_allocated w /\
  (forall ch q, chans w !! ch = Some q -> q = []).

(** No slot of any automaton holds the channel. *)
Definition orphaned (w : World) (ch : nat) : Prop :=
  forall x cx k, auts w !! x = Some cx ->
    map_read (toNeighbors cx) k <> Some ch /\
    map_read (fromNeighbors cx) k <> Some ch.

(** Reads off one slot after the case split on the key. *)
Ltac slot_value :=
  repeat case_decide;
  first [done | f_equal; lia | exfalso; intuition congruence].

(** ** Runs *)

(** Number of [close(done)] calls in a schedule. *)
Definition closes (sched : list Action) : nat :=
  length (filter (fun a => a = MCloseDone) sched).

(** The action is a SetState call of the test body. *)
Definition sets_state (a : Action) : bool :=
  match a with MSetState _ _ => true | _ => false end.

(** Program points of a goroutine that has nothing to send: in its select,
    holding the tick signal, just before AllStatesSent with no key left, or
    returned. *)
Definition rest_pc (pc : PC) : bool :=
  match pc with
  | AtSelect | GotTick | Returned => true
  | Propagating pending None => bool_decide (pending = ∅)
  | _ => false
  end.

(** A system at rest: in every automaton the pending state equals the
    committed state, no channel holds a message and no goroutine is sending
    or has a received state to acknowledge. *)
Definition at_rest (s : Sys) : Prop :=
  Forall (fun c => newState c = state c) (auts (world s)) /\
  Forall (fun q => q = []) (chans (world s)) /\
  Forall (fun pr => rest_pc (p_pc pr) = true) (procs s).

(** The row of five after the three ticks of the test, every goroutine
    reacting to its tick signal before it takes a neighbour's state. *)
Definition linear_gooed : Sys :=
  default (launch empty_world)
          (run (tick1_settled ++ tick2_settled ++ tick3_settled)
               (launch linear_wired)).

(** Goroutine [p] runs automaton [p] and listens on tick channel [p], the
    [p]-th destination of the ticker: the layout [launch] produces. *)
Definition lined_up (s : Sys) : Prop :=
  destinations (ticker s) = seq 0 (length (procs s)) /\
  forall p pr, procs s !! p = Some pr -> p_tick pr = p /\ p_aut pr = p.

(** The row of five with the first [Tick] under way: goroutines 0 and 1
    served, goroutine 2 next. *)
Definition linear_mid_dispatch : Sys :=
  default (launch empty_world)
          (run ([MTick] ++ dispatch 2) (launch linear_wired)).

(** No automaton has the channel in one of the four receive slots its
    select watches. *)
Definition unwatched (w : World) (ch : nat) : Prop :=
  Forall (fun c =>
            Forall (fun d => map_read (fromNeighbors c) d <> Some ch)
                   select_dirs)
         (auts w).

(** Two automata wired under direction 5, which is none of the four
    constants, the first one set to "X". *)
Definition odd_script : list WireOp :=
  [WNew 0; WNew 1; WAdd 5 0 1; WSet 0 "X"].

Definition odd_wired : World :=
  default empty_world (wire odd_script empty_world).

(** Both goroutines hold the first tick signal; the first one has reacted
    and sent its state towards the second. *)
Definition odd_schedule : list Action :=
  [MTick] ++ dispatch 2 ++ spread 0 [5].

Definition odd_sys : Sys :=
  default (launch empty_world) (run odd_schedule (launch odd_wired)).

(** ** Where states come from *)

(** The states a wiring call or an action of the test body passes to
    SetState. *)
Definition op_values (op : WireOp) : list State :=
  match op with WSet _ v => [v] | _ => [] end.

Definition action_values (a : Action) : list State :=
  match a with MSetState _ v => [v] | _ => [] end.

(** Every committed state, pending state and queued message satisfies
    [P]. *)
Definition states_in (P : State -> Prop) (w : World) : Prop :=
  Forall (fun c => P (state c) /\ P (newState c)) (auts w) /\
  Forall (Forall P) (chans w).

(** Every channel sits in at most one send slot and in at most one receive
    slot, over all automata and directions. *)
Definition single_ended (w : World) : Prop :=
  (forall x y cx cy k k' ch,
     auts w !! x = Some cx -> auts w !! y = Some cy ->
     map_read (toNeighbors cx) k = Some ch ->
     map_read (toNeighbors cy) k' = Some ch -> x = y /\ k = k') /\
  (forall x y cx cy k k' ch,
     auts w !! x = Some cx -> auts w !! y = Some cy ->
     map_read (fromNeighbors cx) k = Some ch ->
     map_read (fromNeighbors cy) k' = Some ch -> x = y /\ k = k').

(** ** A tick in a system at rest *)

(** Between ticks, with the goroutines laid out as [launch] leaves them,
    all of them in their select, one automaton per goroutine, and every
    pending state equal to the committed one. *)
Definition ready (s : Sys) : Prop :=
  tpc s = TIdle /\ crashed s = false /\ waitGroup (ticker s) = 0 /\
  lined_up s /\
  Forall (fun pr => p_pc pr = AtSelect) (procs s) /\
  Forall (fun c => newState c = state c) (auts (world s)) /\
  (length (procs s) <= length (auts (world s)))%nat.

(** One whole tick of [n] goroutines none of which has anything to send:
    the call, the [n] hand-offs, the [n] reactions, the return. *)
Definition steady_tick (n : nat) : list Action :=
  [MTick] ++ dispatch n ++ flat_map quiet (seq 0 n) ++ [TWake].

(** The program point of every goroutine, as a function of its index. *)
Definition pcs_are (s : Sys) (f : nat -> PC) : Prop :=
  forall p pr, procs s !! p = Some pr -> p_pc pr = f p.

Lemma run_app (l1 l2 : list Action) (s : Sys) :
  run (l1 ++ l2) s = s' ← run l1 s; run l2 s'.
Proof.
  revert s. induction l1 as [|a l1 IH]; intros s; simpl; [done |].
  destruct (step a s); simpl; [apply IH | done].
Qed.

(** * Properties *)

(** ** Direction indices *)

Lemma Recip_uint8 (d : Z) : is_uint8 d -> Recip d = 255 - d.
Proof.
  intros Hd. unfold Recip, uint8, Z.lnot, is_uint8 in *.
  replace (Z.pred (- d)) with (255 - d + (-1) * 256) by lia.
  rewrite Z.mod_add by lia. apply Z.mod_small. lia.
Qed.

Lemma Recip_range (d : Z) : is_uint8 (Recip d).
Proof. unfold is_uint8, Recip, uint8. apply Z.mod_pos_bound. lia. Qed.

(** The complement of a byte never equals it, whatever integer stands for
    the argument. *)
Lemma Recip_neq (d : Z) : Recip d <> d.
Proof.
  intros Heq. pose proof (Recip_range d) as Hr. rewrite Heq in Hr.
  rewrite Recip_uint8 in Heq by exact Hr. lia.
Qed.

(** C5: Recip is a total function on the uint8 directions, it is an
    involution, it has no fixed point, NeighborUp.Recip() = NeighborDn and
    NeighborRt.Recip() = NeighborLf. *)
Theorem Recip_involution_no_fixpoint :
  (forall d : Z, is_uint8 d ->
     is_uint8 (Recip d) /\ Recip (Recip d) = d /\ Recip d <> d) /\
  Recip NeighborUp = NeighborDn /\ Recip NeighborDn = NeighborUp /\
  Recip NeighborRt = NeighborLf /\ Recip NeighborLf = NeighborRt.
Proof.
  split; [| by vm_compute].
  intros d Hd. split; [apply Recip_range |]. split; [| apply Recip_neq].
  rewrite (Recip_uint8 (Recip d)) by apply Recip_range.
  rewrite Recip_uint8 by exact Hd. lia.
Qed.

Lemma Recip_involution_no_fixpoint_witness :
  is_uint8 (Recip NeighborRt) /\ Recip (Recip NeighborRt) = NeighborRt /\
  Recip NeighborRt <> NeighborRt.
Proof.
  apply (proj1 Recip_involution_no_fixpoint NeighborRt).
  unfold is_uint8, NeighborRt. lia.
Defined.

(** ** Wiring *)

Lemma Channels_initialized (i : Z) (b : nat) (w : World) (cb : GooCellAut)
    (tb fb : gmap Z nat) :
  auts w !! b = Some cb ->
  toNeighbors cb = Some tb -> fromNeighbors cb = Some fb ->
  Channels i b w =
    Some (S (length (chans w)), length (chans w),
          mkWorld (<[b:=mkGoo (ID cb) (newState cb) (state cb)
                          (Some (<[Recip i:=length (chans w)]> tb))
                          (Some (<[Recip i:=S (length (chans w))]> fb))]>
                     (auts w))
                  (chans w ++ [[]; []])).
Proof.
  intros Hb Ht Hf. unfold Channels. rewrite Hb. simpl.
  rewrite Ht. simpl. rewrite Hf. simpl. reflexivity.
Qed.

Lemma Channels_inv (i : Z) (b : nat) (w w1 : World) (x y : nat) :
  Channels i b w = Some (x, y, w1) ->
  exists cb tb fb, auts w !! b = Some cb /\
    toNeighbors cb = Some tb /\ fromNeighbors cb = Some fb.
Proof.
  unfold Channels. intros H.
  destruct (auts w !! b) as [cb|] eqn:Hb; [| discriminate]. simpl in H.
  destruct (toNeighbors cb) as [tb|] eqn:Ht; [| discriminate]. simpl in H.
  destruct (fromNeighbors cb) as [fb|] eqn:Hf; [| discriminate].
  eauto 7.
Qed.

Lemma AddNeighbor_initialized (i : Z) (a b : nat) (w : World) :
  initialized w a -> initialized w b ->
  exists w', AddNeighbor i a b w = Some w' /\ rewired i a b w w'.
Proof.
  intros (ca & Ha & [ta Hta] & [fa Hfa]) (cb & Hb & [tb Htb] & [fb Hfb]).
  pose proof (Recip_neq i) as Hne.
  pose proof (lookup_lt_Some _ _ _ Ha) as Hla.
  pose proof (lookup_lt_Some _ _ _ Hb) as Hlb.
  unfold AddNeighbor.
  rewrite (Channels_initialized i b w cb tb fb Hb Htb Hfb). simpl.
  destruct (decide (a = b)) as [->|Hab].
  - rewrite list_lookup_insert_eq by done. simpl.
    eexists. split; [reflexivity |].
    unfold rewired. simpl. rewrite !length_insert.
    split; [done |]. split; [done |].
    split. { intros x Hx _. by rewrite !list_lookup_insert_ne. }
    rewrite list_insert_insert_eq.
    assert (ca = cb) as -> by congruence.
    exists cb, cb. eexists. eexists.
    rewrite list_lookup_insert_eq by done.
    repeat split; try done; slot_cases.
  - rewrite list_lookup_insert_ne by done. rewrite Ha. simpl.
    rewrite Hta. simpl. rewrite Hfa. simpl.
    eexists. split; [reflexivity |].
    unfold rewired. simpl. rewrite !length_insert.
    split; [done |]. split; [done |].
    split. { intros x Hxa Hxb. by rewrite !list_lookup_insert_ne. }
    exists ca, cb. eexists. eexists.
    rewrite list_lookup_insert_eq by (by rewrite length_insert).
    rewrite list_lookup_insert_ne by done.
    rewrite list_lookup_insert_eq by done.
    repeat split; try done; slot_cases.
Qed.

Lemma AddNeighbor_inv (i : Z) (a b : nat) (w w' : World) :
  AddNeighbor i a b w = Some w' -> initialized w a /\ initialized w b.
Proof.
  unfold AddNeighbor. intros H.
  destruct (Channels i b w) as [[[x y] w1]|] eqn:Hc; [| discriminate].
  pose proof (Channels_inv _ _ _ _ _ _ Hc) as (cb & tb & fb & Hb & Htb & Hfb).
  rewrite (Channels_initialized i b w cb tb fb Hb Htb Hfb) in Hc.
  injection Hc as <- <- <-. simpl in H.
  split; [| exists cb; rewrite Htb, Hfb; eauto].
  destruct (decide (a = b)) as [->|Hab].
  { exists cb. rewrite Htb, Hfb. eauto. }
  rewrite list_lookup_insert_ne in H by done.
  destruct (auts w !! a) as [ca|] eqn:Ha; [| discriminate]. simpl in H.
  destruct (toNeighbors ca) as [ta|] eqn:Hta; [| discriminate]. simpl in H.
  destruct (fromNeighbors ca) as [fa|] eqn:Hfa; [| discriminate].
  exists ca. rewrite Hta, Hfa. eauto.
Qed.

Lemma initialized_once_wired (a : nat) :
  (a < 2)%nat -> initialized once_wired a.
Proof.
  intros Ha. destruct a as [|[|a]]; [| | lia];
    (eexists; split; [vm_compute; reflexivity |]; simpl; split; eauto).
Qed.

(** C3, as stated, fails: after the first wiring call of the test the slot
    (auts[1], NeighborLf) is populated, and the second call of the test,
    auts[1].AddNeighbor(NeighborLf, auts[0]), does not fail on it. *)
Lemma rewiring_populated_slot_succeeds :
  populated once_wired 1 NeighborLf /\
  AddNeighbor NeighborLf 1 0 once_wired <> None.
Proof.
  split.
  - eexists. split; [vm_compute; reflexivity |].
    left. vm_compute. eauto.
  - destruct (AddNeighbor_initialized NeighborLf 1 0 once_wired)
      as (w' & Hw' & _); [by apply initialized_once_wired; lia ..|].
    rewrite Hw'. discriminate.
Qed.

(** C3, amended: AddNeighbor on an initialized automaton with an
    initialized neighbour never fails, also when the slot is populated
    already; the slot is overwritten with the two channels the neighbour
    has just made. *)
Theorem AddNeighbor_repopulates (d : Z) (a b : nat) (w : World) :
  initialized w a -> initialized w b -> populated w a d ->
  exists w' ca',
    AddNeighbor d a b w = Some w' /\
    auts w' !! a = Some ca' /\
    map_read (toNeighbors ca') d = Some (S (length (chans w))) /\
    map_read (fromNeighbors ca') d = Some (length (chans w)).
Proof.
  intros Ha Hb _.
  destruct (AddNeighbor_initialized d a b w Ha Hb) as (w' & Hw' & Hr).
  destruct Hr as (_ & _ & _ & ca & cb & ca' & cb' & _ & _ & Ha' & _
                  & Hto & Hfrom & _).
  exists w', ca'. split; [done |]. split; [done |].
  rewrite Hto, Hfrom. by rewrite !decide_True.
Qed.

Lemma AddNeighbor_repopulates_witness :
  exists w' ca',
    AddNeighbor NeighborLf 1 0 once_wired = Some w' /\
    auts w' !! 1%nat = Some ca' /\
    map_read (toNeighbors ca') NeighborLf =
      Some (S (length (chans once_wired))) /\
    map_read (fromNeighbors ca') NeighborLf =
      Some (length (chans once_wired)).
Proof.
  apply (AddNeighbor_repopulates NeighborLf 1 0 once_wired).
  - eexists. split; [vm_compute; reflexivity |]. simpl. split; eauto.
  - eexists. split; [vm_compute; reflexivity |]. simpl. split; eauto.
  - eexists. split; [vm_compute; reflexivity |]. left. vm_compute. eauto.
Defined.

(** C6: after A.AddNeighbor(d, B), A stores the two channels returned by
    B.Channels(d) under d, B holds the pair under d.Recip(), and the channel
    A sends on for d is B's receive channel for d.Recip() and sits in no
    other receive slot of any automaton. *)
Theorem wiring_symmetry (d : Z) (a b : nat) (w w' : World) :
  chans_allocated w ->
  AddNeighbor d a b w = Some w' ->
  exists toN fromN w1 ca cb,
    Channels d b w = Some (toN, fromN, w1) /\
    auts w' !! a = Some ca /\ auts w' !! b = Some cb /\
    map_read (toNeighbors ca) d = Some toN /\
    map_read (fromNeighbors ca) d = Some fromN /\
    map_read (fromNeighbors cb) (Recip d) = Some toN /\
    map_read (toNeighbors cb) (Recip d) = Some fromN /\
    forall x cx k, auts w' !! x = Some cx ->
      map_read (fromNeighbors cx) k = Some toN -> x = b /\ k = Recip d.
Proof.
  intros Hwf Hadd.
  pose proof (Recip_neq d) as Hne.
  destruct (AddNeighbor_inv _ _ _ _ _ Hadd) as [Ha Hb].
  destruct (AddNeighbor_initialized d a b w Ha Hb) as (w2 & Hw2 & Hr).
  assert (w2 = w') as -> by congruence.
  destruct Hb as (cb0 & Hb0 & [tb Htb] & [fb Hfb]).
  destruct Hr as (_ & _ & Hoth & ca & cb & ca' & cb' & Hca & Hcb & Hca' & Hcb'
                  & Hat & Haf & Hbt & Hbf & _).
  exists (S (length (chans w))), (length (chans w)). eexists. exists ca', cb'.
  split; [by apply (Channels_initialized d b w cb0 tb fb) |].
  split; [done |]. split; [done |].
  split; [by rewrite Hat, decide_True |].
  split; [by rewrite Haf, decide_True |].
  split.
  { rewrite Hbf. rewrite decide_False by (intros [_ E]; by apply Hne).
    by rewrite decide_True. }
  split.
  { rewrite Hbt. rewrite decide_False by (intros [_ E]; by apply Hne).
    by rewrite decide_True. }
  intros x cx k Hx Hk.
  assert (forall c0, auts w !! x = Some c0 ->
            map_read (fromNeighbors c0) k <> Some (S (length (chans w))))
    as Hold.
  { intros c0 Hc0 Heq.
    pose proof (Hwf x c0 k _ Hc0 (or_intror Heq)). lia. }
  destruct (decide (x = b)) as [->|Hxb].
  - assert (cx = cb') as -> by congruence.
    rewrite Hbf in Hk.
    repeat case_decide; simplify_eq; try done; try (exfalso; lia);
      exfalso; by eapply Hold.
  - exfalso. destruct (decide (x = a)) as [->|Hxa].
    + assert (cx = ca') as -> by congruence.
      rewrite Haf in Hk.
      repeat case_decide; simplify_eq; try (exfalso; lia); try naive_solver;
        by eapply Hold.
    + rewrite Hoth in Hx by done. by apply (Hold cx).
Qed.

Lemma chans_allocated_new_aut (i : Z) (w : World) :
  chans_allocated w -> chans_allocated (snd (new_aut i w)).
Proof.
  intros Hwf a c d ch Ha Hch. simpl in *.
  apply lookup_app_Some in Ha as [Ha|[_ Ha]]; [by eapply Hwf |].
  apply list_lookup_singleton_Some in Ha as [_ <-]. simpl in Hch.
  rewrite !lookup_empty in Hch. by destruct Hch.
Qed.

Lemma chans_allocated_AddNeighbor (d : Z) (a b : nat) (w w' : World) :
  chans_allocated w -> AddNeighbor d a b w = Some w' -> chans_allocated w'.
Proof.
  intros Hwf Hadd.
  destruct (AddNeighbor_inv _ _ _ _ _ Hadd) as [Ha Hb].
  destruct (AddNeighbor_initialized d a b w Ha Hb) as (w2 & Hw2 & Hr).
  assert (w2 = w') as -> by congruence.
  destruct Hr as (Hch & _ & Hoth & ca & cb & ca' & cb' & Hca & Hcb & Hca'
                  & Hcb' & Hat & Haf & Hbt & Hbf & _).
  intros x cx k ch Hx Hk. rewrite Hch, length_app. simpl.
  assert (forall c0, auts w !! x = Some c0 ->
            map_read (toNeighbors c0) k = Some ch \/
            map_read (fromNeighbors c0) k = Some ch ->
            (ch < length (chans w) + 2)%nat) as Hold.
  { intros c0 Hc0 Hor. pose proof (Hwf x c0 k ch Hc0 Hor). lia. }
  destruct (decide (x = a)) as [->|Hxa].
  { assert (cx = ca') as -> by congruence.
    destruct Hk as [Hk|Hk]; [rewrite Hat in Hk | rewrite Haf in Hk];
      repeat case_decide; simplify_eq; try lia; eapply Hold; eauto. }
  destruct (decide (x = b)) as [->|Hxb].
  { assert (cx = cb') as -> by congruence.
    destruct Hk as [Hk|Hk]; [rewrite Hbt in Hk | rewrite Hbf in Hk];
      repeat case_decide; simplify_eq; try lia; eapply Hold; eauto. }
  rewrite Hoth in Hx by done. by eapply Hold.
Qed.

Lemma chans_allocated_once_wired : chans_allocated once_wired.
Proof.
  apply (chans_allocated_AddNeighbor NeighborRt 0 1 pair_world).
  - do 2 apply chans_allocated_new_aut. intros a c d ch Ha. by destruct a.
  - vm_compute. reflexivity.
Qed.

Lemma wiring_symmetry_witness :
  exists toN fromN w1 ca cb,
    Channels NeighborLf 0 once_wired = Some (toN, fromN, w1) /\
    auts (default empty_world (AddNeighbor NeighborLf 1 0 once_wired))
      !! 1%nat = Some ca /\
    auts (default empty_world (AddNeighbor NeighborLf 1 0 once_wired))
      !! 0%nat = Some cb /\
    map_read (toNeighbors ca) NeighborLf = Some toN /\
    map_read (fromNeighbors ca) NeighborLf = Some fromN /\
    map_read (fromNeighbors cb) (Recip NeighborLf) = Some toN /\
    map_read (toNeighbors cb) (Recip NeighborLf) = Some fromN /\
    forall x cx k,
      auts (default empty_world (AddNeighbor NeighborLf 1 0 once_wired))
        !! x = Some cx ->
      map_read (fromNeighbors cx) k = Some toN ->
      x = 0%nat /\ k = Recip NeighborLf.
Proof.
  apply (wiring_symmetry NeighborLf 1 0 once_wired).
  - exact chans_allocated_once_wired.
  - vm_compute. reflexivity.
Defined.

(** ** State updates *)

Lemma wg_add_ok (delta : Z) (s : Sys) :
  0 <= waitGroup (ticker s) + delta ->
  wg_add delta s =
    with_ticker s (mkTicker (tickID (ticker s)) (destinations (ticker s))
                            (waitGroup (ticker s) + delta)).
Proof. intros H. unfold wg_add. by rewrite decide_False by lia. Qed.

Lemma procs_with_pc_ne (s : Sys) (p q : nat) (pc : PC) :
  p <> q -> procs (with_pc s p pc) !! q = procs s !! q.
Proof. intros H. unfold with_pc. simpl. by rewrite list_lookup_alter_ne. Qed.

Lemma procs_with_pc_eq (s : Sys) (p : nat) (pc : PC) (pr : Proc) :
  procs s !! p = Some pr ->
  procs (with_pc s p pc) !! p = Some (mkProc (p_aut pr) (p_tick pr) pc).
Proof.
  intros Hp. unfold with_pc. simpl. by rewrite list_lookup_alter_eq, Hp.
Qed.

(** ** The reaction to a tick signal *)

Section Reacting.
Variables (s : Sys) (p : nat) (pr : Proc) (c : GooCellAut).
Hypothesis Hlive : crashed s = false.
Hypothesis Hproc : procs s !! p = Some pr.
Hypothesis Hpc : p_pc pr = GotTick.
Hypothesis Haut : auts (world s) !! p_aut pr = Some c.

Lemma step_PReact_equal :
  newState c = state c ->
  step (PReact p) s = Some (with_pc s p (Propagating ∅ None)).
Proof.
  intros Heq. unfold step. rewrite Hlive. simpl. rewrite Hproc. simpl.
  rewrite Haut. simpl. rewrite Hpc.
  by rewrite bool_decide_eq_true_2.
Qed.

Lemma step_PReact_changed :
  newState c <> state c ->
  step (PReact p) s =
    Some (with_pc (set_aut s (p_aut pr) (set_state c (newState c))) p
                  (Propagating (map_keys (toNeighbors c)) None)).
Proof.
  intros Hne. unfold step. rewrite Hlive. simpl. rewrite Hproc. simpl.
  rewrite Haut. simpl. rewrite Hpc.
  by rewrite bool_decide_eq_false_2.
Qed.

(** Equal states: one credit released, no channel touched. *)
Lemma react_equal :
  newState c = state c ->
  0 < waitGroup (ticker s) ->
  exists s',
    run [PReact p; PAllSent p] s = Some s' /\
    world s' = world s /\
    waitGroup (ticker s') = waitGroup (ticker s) - 1 /\
    tickID (ticker s') = tickID (ticker s) /\
    destinations (ticker s') = destinations (ticker s) /\
    tpc s' = tpc s /\ crashed s' = false /\
    pc_of s' p = Some AtSelect /\
    (forall q, q <> p -> procs s' !! q = procs s !! q).
Proof.
  intros Heq Hwg. simpl. rewrite (step_PReact_equal Heq). simpl.
  unfold step. simpl. rewrite Hlive. simpl.
  rewrite list_lookup_alter_eq, Hproc. simpl.
  rewrite wg_add_ok by (simpl; lia).
  eexists. split; [reflexivity |]. simpl.
  repeat split; try done.
  - unfold pc_of. simpl. by rewrite !list_lookup_alter_eq, Hproc.
  - intros q Hq. by rewrite !list_lookup_alter_ne.
Qed.

(** After the comparison found equal states, the goroutine can do
    nothing but call AllStatesSent: no StateSent, no send. *)
Lemma react_equal_no_send (a : Action) (s2 : Sys) :
  newState c = state c ->
  actor a = Some p ->
  step a (with_pc s p (Propagating ∅ None)) = Some s2 ->
  a = PAllSent p.
Proof.
  intros Heq Hact Hstep.
  destruct a; simpl in Hact; try discriminate;
    injection Hact as ->; try reflexivity;
    unfold step in Hstep; simpl in Hstep; rewrite Hlive in Hstep;
    simpl in Hstep;
    rewrite list_lookup_alter_eq, Hproc in Hstep; simpl in Hstep;
    try rewrite Haut in Hstep; simpl in Hstep; discriminate.
Qed.
End Reacting.

Lemma links_free_cons (tos : option (gmap Z nat)) (d : Z) (rest : list Z)
    (chs : list (list State)) (ch : nat) (q : list State) :
  NoDup (d :: rest) ->
  links_free tos (d :: rest) chs ->
  map_read tos d = Some ch ->
  links_free tos rest (<[ch:=q]> chs).
Proof.
  intros Hnd [Hfree Hinj] Hch. apply NoDup_cons in Hnd as [Hd Hnd].
  split.
  - intros d' Hd'.
    destruct (Hfree d') as (ch' & Hch' & Hq'); [set_solver |].
    exists ch'. split; [done |].
    rewrite list_lookup_insert_ne; [done |].
    intros ->. apply Hd.
    rewrite (Hinj d d' ch'); [done | set_solver | set_solver | done | done].
  - intros d1 d2 ch' H1 H2. apply Hinj; set_solver.
Qed.

Lemma spread_loop (p a t : nat) (c : GooCellAut) (dirs : list Z) :
  forall (s : Sys) (pending : gset Z),
    crashed s = false ->
    procs s !! p = Some (mkProc a t (Propagating pending None)) ->
    auts (world s) !! a = Some c ->
    0 <= waitGroup (ticker s) ->
    NoDup dirs ->
    (forall d, d ∈ dirs -> d ∈ pending) ->
    links_free (toNeighbors c) dirs (chans (world s)) ->
    exists s',
      run (flat_map (fun d => [PAdd p d; PPut p]) dirs) s = Some s' /\
      auts (world s') = auts (world s) /\
      chans (world s') =
        deliveries (toNeighbors c) (state c) dirs (chans (world s)) /\
      waitGroup (ticker s') =
        waitGroup (ticker s) + Z.of_nat (length dirs) /\
      tickID (ticker s') = tickID (ticker s) /\
      destinations (ticker s') = destinations (ticker s) /\
      tpc s' = tpc s /\ crashed s' = false /\
      procs s' !! p =
        Some (mkProc a t (Propagating (pending ∖ list_to_set dirs) None)) /\
      (forall q, q <> p -> procs s' !! q = procs s !! q).
Proof.
  induction dirs as [|d rest IH]; intros s pending Hlive Hp Hc Hwg Hnd Hin Hfree.
  - exists s. simpl. repeat split; try done; try lia.
    rewrite Hp. do 3 f_equal.
    by rewrite difference_empty_L.
  - destruct (proj1 Hfree d) as (ch & Hch & Hq); [set_solver |].
    cbn [flat_map app run].
    assert (step (PAdd p d) s =
            Some (with_pc (wg_add 1 s) p
                          (Propagating (pending ∖ {[d]}) (Some ch)))) as ->.
    { unfold step. rewrite Hlive. simpl. rewrite Hp. simpl. rewrite Hc. simpl.
      rewrite bool_decide_eq_true_2 by (apply Hin; set_solver). simpl.
      by rewrite Hch. }
    rewrite wg_add_ok by lia. simpl.
    set (s1 := with_pc _ p _).
    assert (step (PPut p) s1 =
            Some (with_pc (set_chan s1 ch ([] ++ [state c])) p
                          (Propagating (pending ∖ {[d]}) None))) as ->.
    { unfold step, s1. simpl. rewrite Hlive. simpl.
      rewrite list_lookup_alter_eq, Hp. simpl. rewrite Hc. simpl.
      rewrite Hq. simpl. reflexivity. }
    simpl. set (s2 := with_pc _ p _).
    destruct (IH s2 (pending ∖ {[d]})) as (s' & Hrun & Hau & Hchs & Hw & Hid
                                            & Hds & Htpc & Hcr & Hp' & Hoth).
    + done.
    + unfold s2, s1. simpl. rewrite !list_lookup_alter_eq, Hp. done.
    + done.
    + simpl. lia.
    + by apply NoDup_cons in Hnd as [_ Hnd].
    + intros d' Hd'. apply NoDup_cons in Hnd as [Hd _].
      apply elem_of_difference. split; [apply Hin; set_solver | set_solver].
    + simpl. by eapply links_free_cons.
    + exists s'. split; [done |].
      split; [by rewrite Hau |].
      split.
      { rewrite Hchs. simpl. rewrite Hch. f_equal.
        apply list_eq. intros j. destruct (decide (j = ch)) as [->|Hj].
        - rewrite list_lookup_alter_eq, Hq.
          rewrite list_lookup_insert_eq; [done |].
          by eapply lookup_lt_Some.
        - by rewrite list_lookup_alter_ne, list_lookup_insert_ne. }
      split; [rewrite Hw; simpl; lia |].
      split; [by rewrite Hid |]. split; [by rewrite Hds |].
      split; [by rewrite Htpc |]. split; [done |].
      split.
      { rewrite Hp'. do 3 f_equal.
        by rewrite difference_difference_l_L. }
      intros q Hq'. rewrite Hoth by done.
      unfold s2, s1. simpl. by rewrite !list_lookup_alter_ne.
Qed.

(** Different states: commit, one credit and one delivery per outgoing
    link (in whatever order the range loop visits them), then one credit
    released. *)
Lemma react_changed (s : Sys) (p : nat) (pr : Proc) (c : GooCellAut)
    (dirs : list Z) :
  crashed s = false ->
  procs s !! p = Some pr ->
  p_pc pr = GotTick ->
  auts (world s) !! p_aut pr = Some c ->
  newState c <> state c ->
  0 < waitGroup (ticker s) ->
  NoDup dirs ->
  (forall d, d ∈ dirs <-> d ∈ map_keys (toNeighbors c)) ->
  links_free (toNeighbors c) dirs (chans (world s)) ->
  exists s',
    run (spread p dirs) s = Some s' /\
    auts (world s') =
      <[p_aut pr:=set_state c (newState c)]> (auts (world s)) /\
    chans (world s') =
      deliveries (toNeighbors c) (newState c) dirs (chans (world s)) /\
    waitGroup (ticker s') =
      waitGroup (ticker s) + Z.of_nat (length dirs) - 1 /\
    tickID (ticker s') = tickID (ticker s) /\
    destinations (ticker s') = destinations (ticker s) /\
    tpc s' = tpc s /\ crashed s' = false /\
    pc_of s' p = Some AtSelect /\
    (forall q, q <> p -> procs s' !! q = procs s !! q).
Proof.
  intros Hlive Hp Hpc Hc Hne Hwg Hnd Hdirs Hfree.
  unfold spread. cbn [app run].
  rewrite (step_PReact_changed s p pr c Hlive Hp Hpc Hc Hne). simpl.
  set (s1 := with_pc _ p _).
  pose proof (lookup_lt_Some _ _ _ Hc) as Hlt.
  destruct (spread_loop p (p_aut pr) (p_tick pr) (set_state c (newState c))
              dirs s1 (map_keys (toNeighbors c)))
    as (s2 & Hrun & Hau & Hchs & Hw & Hid & Hds & Htpc & Hcr & Hp2 & Hoth).
  - done.
  - unfold s1. simpl. by rewrite list_lookup_alter_eq, Hp.
  - unfold s1. simpl. by rewrite list_lookup_insert_eq.
  - simpl. lia.
  - done.
  - intros d. apply Hdirs.
  - done.
  - rewrite run_app, Hrun. simpl.
    assert (map_keys (toNeighbors c) ∖ list_to_set dirs = (∅ : gset Z))
      as Hempty.
    { apply set_eq. intros d.
      rewrite elem_of_difference, elem_of_list_to_set, elem_of_empty.
      specialize (Hdirs d). tauto. }
    rewrite Hempty in Hp2.
    unfold step. rewrite Hcr. simpl. rewrite Hp2. simpl.
    rewrite wg_add_ok by (rewrite Hw; simpl; lia).
    eexists. split; [reflexivity |]. simpl.
    split; [by rewrite Hau |]. split; [by rewrite Hchs |].
    split; [rewrite Hw; simpl; lia |].
    split; [by rewrite Hid |]. split; [by rewrite Hds |].
    split; [by rewrite Htpc |]. split; [done |].
    split.
    + unfold pc_of. simpl. by rewrite list_lookup_alter_eq, Hp2.
    + intros q Hq. rewrite list_lookup_alter_ne by done.
      rewrite Hoth by done. unfold s1. simpl.
      by rewrite list_lookup_alter_ne.
Qed.

(** The control flow of the tick case: what a goroutine can do next at each
    program point between the tick signal and its return to the select. *)
Lemma tick_case_control_flow (a : Action) (s s' : Sys) (p : nat)
    (pr : Proc) :
  procs s !! p = Some pr -> actor a = Some p -> step a s = Some s' ->
  match p_pc pr with
  | GotTick => a = PReact p
  | Propagating pending None =>
      (a = PAllSent p /\ pending = ∅) \/ (exists d, a = PAdd p d /\ d ∈ pending)
  | Propagating pending (Some ch) => a = PPut p
  | AfterRecv => a = PRecvDone p
  | AtSelect => (exists d, a = PRecv p d) \/ a = PDone p
  | Returned => False
  end.
Proof.
  intros Hp Hact Hstep.
  destruct a; simpl in Hact; try discriminate; injection Hact as ->;
    step_cases Hstep;
    try match goal with H : p_pc _ = _ |- _ => rewrite H end; eauto.
Qed.

(** C7: a goroutine that has taken the tick signal either finds pending and
    committed state equal, then it releases exactly one credit, touches no
    channel and has no send to perform; or it finds them different, then it
    commits the pending state, takes one credit and delivers the committed
    state once per outgoing link, and releases one credit at the end. *)
Theorem tick_reaction (s : Sys) (p : nat) (pr : Proc) (c : GooCellAut) :
  crashed s = false ->
  procs s !! p = Some pr ->
  p_pc pr = GotTick ->
  auts (world s) !! p_aut pr = Some c ->
  0 < waitGroup (ticker s) ->
  (newState c = state c ->
     (exists s',
        run (quiet p) s = Some s' /\
        world s' = world s /\
        waitGroup (ticker s') = waitGroup (ticker s) - 1 /\
        pc_of s' p = Some AtSelect) /\
     (forall s1 a s2,
        step (PReact p) s = Some s1 -> actor a = Some p ->
        step a s1 = Some s2 -> a = PAllSent p)) /\
  (newState c <> state c ->
     forall dirs : list Z,
       NoDup dirs ->
       (forall d, d ∈ dirs <-> d ∈ map_keys (toNeighbors c)) ->
       links_free (toNeighbors c) dirs (chans (world s)) ->
       exists s',
         run (spread p dirs) s = Some s' /\
         auts (world s') =
           <[p_aut pr:=set_state c (newState c)]> (auts (world s)) /\
         chans (world s') =
           deliveries (toNeighbors c) (newState c) dirs (chans (world s)) /\
         waitGroup (ticker s') =
           waitGroup (ticker s) + Z.of_nat (length dirs) - 1 /\
         pc_of s' p = Some AtSelect) /\
  (forall s1 pr1 pending cur a s2,
     procs s1 !! p = Some pr1 -> p_pc pr1 = Propagating pending cur ->
     actor a = Some p -> step a s1 = Some s2 ->
     match cur with
     | None => (a = PAllSent p /\ pending = ∅) \/
               (exists d, a = PAdd p d /\ d ∈ pending)
     | Some _ => a = PPut p
     end).
Proof.
  intros Hlive Hp Hpc Hc Hwg.
  split; [| split];
    [| | intros s1 pr1 pending cur a s2 Hp1 Hpc1 Hact Hstep;
         pose proof (tick_case_control_flow a s1 s2 p pr1 Hp1 Hact Hstep) as Hcf;
         by rewrite Hpc1 in Hcf].
  - intros Heq. split.
    + destruct (react_equal s p pr c Hlive Hp Hpc Hc Heq Hwg)
        as (s' & Hrun & Hw & Hcnt & _ & _ & _ & _ & Hpc' & _).
      exists s'. by repeat split.
    + intros s1 a s2 Hs1 Hact Hs2.
      rewrite (step_PReact_equal s p pr c Hlive Hp Hpc Hc Heq) in Hs1.
      injection Hs1 as <-.
      by eapply (react_equal_no_send s p pr c).
  - intros Hne dirs Hnd Hdirs Hfree.
    destruct (react_changed s p pr c dirs Hlive Hp Hpc Hc Hne Hwg Hnd Hdirs
                Hfree)
      as (s' & Hrun & Hau & Hchs & Hcnt & _ & _ & _ & _ & Hpc' & _).
    exists s'. by repeat split.
Qed.

Lemma NoDup_Lf_Rt : NoDup [NeighborLf; NeighborRt].
Proof.
  apply NoDup_cons. split; [| apply NoDup_singleton].
  rewrite list_elem_of_singleton. discriminate.
Qed.

Lemma tick_reaction_witness :
  (exists s',
     run (quiet 0) linear_dispatched = Some s' /\
     world s' = world linear_dispatched /\
     waitGroup (ticker s') = 5 - 1 /\
     pc_of s' 0 = Some AtSelect) /\
  (exists s',
     run (spread 2 [NeighborLf; NeighborRt]) linear_dispatched = Some s' /\
     GetState 2 (world s') = Some "X" /\
     chans (world s') !! 7%nat = Some ["X"] /\
     chans (world s') !! 10%nat = Some ["X"] /\
     waitGroup (ticker s') = 5 + 2 - 1 /\
     pc_of s' 2 = Some AtSelect).
Proof.
  split.
  - edestruct (tick_reaction linear_dispatched 0) as (Heq & _ & _);
      [vm_compute; reflexivity .. |].
    destruct Heq as [(s' & Hrun & Hw & Hcnt & Hpc) _]; [reflexivity |].
    exists s'. split; [exact Hrun |]. split; [exact Hw |].
    split; [exact Hcnt | exact Hpc].
  - destruct (tick_reaction linear_dispatched 2 (mkProc 2 2 GotTick)
                linear_middle) as (_ & Hne & _);
      [vm_compute; reflexivity .. |].
    destruct (Hne ltac:(discriminate) [NeighborLf; NeighborRt])
      as (s' & Hrun & Hau & Hchs & Hcnt & Hpc).
    + exact NoDup_Lf_Rt.
    + intros d. unfold linear_middle, map_keys, toNeighbors.
      rewrite !dom_insert_L, dom_empty_L.
      rewrite !elem_of_cons, elem_of_nil, !elem_of_union, !elem_of_singleton,
        elem_of_empty.
      tauto.
    + split.
      * intros d Hd.
        apply elem_of_cons in Hd as [->|Hd];
          [| apply list_elem_of_singleton in Hd as ->];
          eexists; (split; vm_compute; reflexivity).
      * intros d1 d2 ch H1 H2 E1 E2.
        apply elem_of_cons in H1 as [->|H1];
          [| apply list_elem_of_singleton in H1 as ->];
          (apply elem_of_cons in H2 as [->|H2];
           [| apply list_elem_of_singleton in H2 as ->]);
          try reflexivity; vm_compute in E1, E2; congruence.
    + exists s'. split; [exact Hrun |].
      split; [unfold GetState; rewrite Hau; vm_compute; reflexivity |].
      split; [rewrite Hchs; vm_compute; reflexivity |].
      split; [rewrite Hchs; vm_compute; reflexivity |].
      split; [exact Hcnt | exact Hpc].
Defined.

(** ** What changes the committed and the pending state *)

Lemma world_wg_add (delta : Z) (s : Sys) : world (wg_add delta s) = world s.
Proof. unfold wg_add. by case_decide. Qed.

Lemma procs_wg_add (delta : Z) (s : Sys) : procs (wg_add delta s) = procs s.
Proof. unfold wg_add. by case_decide. Qed.

Lemma tpc_wg_add (delta : Z) (s : Sys) : tpc (wg_add delta s) = tpc s.
Proof. unfold wg_add. by case_decide. Qed.

Lemma step_commit_inv (a : Action) (s s' : Sys) (i : nat)
    (c c' : GooCellAut) :
  step a s = Some s' ->
  auts (world s) !! i = Some c ->
  auts (world s') !! i = Some c' ->
  state c' <> state c ->
  exists p pr,
    a = PReact p /\ procs s !! p = Some pr /\ p_pc pr = GotTick /\
    p_aut pr = i /\ state c' = newState c.
Proof.
  intros Hstep Hc Hc' Hne.
  destruct a; step_cases Hstep; simpl in Hc';
    rewrite ?world_wg_add in Hc'; simpl in Hc'.
  all: try (exfalso; apply Hne; congruence).
  - unfold SetState in *. simplify_option_eq.
    apply list_lookup_insert_Some in Hc' as [(-> & <- & _)|[_ Hc']];
      exfalso; apply Hne; simplify_eq; done.
  - apply list_lookup_insert_Some in Hc' as [(<- & <- & _)|[_ Hc']].
    + simplify_eq. eauto 10.
    + exfalso; apply Hne; congruence.
  - apply list_lookup_insert_Some in Hc' as [(<- & <- & _)|[_ Hc']];
      exfalso; apply Hne; simplify_eq; done.
Qed.

Lemma SetState_spec (v : State) (a : nat) (w : World) (c : GooCellAut) :
  auts w !! a = Some c ->
  exists w',
    SetState v a w = Some w' /\ chans w' = chans w /\
    auts w' = <[a:=set_newState c v]> (auts w) /\
    auts w' !! a = Some (set_newState c v).
Proof.
  intros Hc. unfold SetState. rewrite Hc. simpl.
  eexists. split; [reflexivity |]. simpl. split; [done |]. split; [done |].
  apply list_lookup_insert_eq. by eapply lookup_lt_Some.
Qed.

(** A neighbour's state waiting on one of the four watched links is taken
    whatever the ticker is doing: the pending state becomes the received
    value and one credit is released. *)
Lemma recv_applies (s : Sys) (p : nat) (pr : Proc) (c : GooCellAut)
    (d : Z) (ch : nat) (v : State) (q : list State) :
  crashed s = false ->
  procs s !! p = Some pr ->
  p_pc pr = AtSelect ->
  auts (world s) !! p_aut pr = Some c ->
  d ∈ select_dirs ->
  map_read (fromNeighbors c) d = Some ch ->
  chans (world s) !! ch = Some (v :: q) ->
  0 < waitGroup (ticker s) ->
  exists s',
    run (recv p d) s = Some s' /\
    auts (world s') = <[p_aut pr:=set_newState c v]> (auts (world s)) /\
    chans (world s') = <[ch:=q]> (chans (world s)) /\
    waitGroup (ticker s') = waitGroup (ticker s) - 1 /\
    tickID (ticker s') = tickID (ticker s) /\
    destinations (ticker s') = destinations (ticker s) /\
    tpc s' = tpc s /\ crashed s' = false /\
    pc_of s' p = Some AtSelect /\
    (forall r, r <> p -> procs s' !! r = procs s !! r).
Proof.
  intros Hlive Hp Hpc Hc Hd Hch Hq Hwg.
  unfold recv. cbn [run].
  assert (step (PRecv p d) s =
          Some (with_pc (set_aut (set_chan s ch q) (p_aut pr)
                                 (set_newState c v)) p AfterRecv)) as ->.
  { unfold step. rewrite Hlive. simpl. rewrite Hp. simpl. rewrite Hc. simpl.
    rewrite Hpc. rewrite bool_decide_eq_true_2 by done. simpl.
    rewrite Hch. simpl. by rewrite Hq. }
  simpl. unfold step. simpl. rewrite Hlive. simpl.
  rewrite list_lookup_alter_eq, Hp. simpl.
  rewrite wg_add_ok by (simpl; lia).
  eexists. split; [reflexivity |]. simpl.
  repeat split; try done.
  - unfold pc_of. simpl. by rewrite !list_lookup_alter_eq, Hp.
  - intros r Hr. by rewrite !list_lookup_alter_ne.
Qed.

(** C8: only the reaction to a tick signal changes the committed state
    (and it sets it to the pending state); SetState writes the pending
    state only and the last write wins; a neighbour's state is taken
    whatever the phase of the tick, overwrites the pending state only and
    releases one credit. *)
Theorem committed_state_only_changes_on_tick :
  (forall a s s' i c c',
     step a s = Some s' ->
     auts (world s) !! i = Some c ->
     auts (world s') !! i = Some c' ->
     state c' <> state c ->
     exists p pr,
       a = PReact p /\ procs s !! p = Some pr /\ p_pc pr = GotTick /\
       p_aut pr = i /\ state c' = newState c) /\
  (forall w a c v1 v2,
     auts w !! a = Some c ->
     exists w1 w2,
       SetState v1 a w = Some w1 /\
       auts w1 !! a = Some (set_newState c v1) /\
       SetState v2 a w1 = Some w2 /\
       auts w2 !! a = Some (set_newState c v2) /\
       GetState a w2 = GetState a w) /\
  (forall s p pr c d ch v q,
     crashed s = false ->
     procs s !! p = Some pr ->
     p_pc pr = AtSelect ->
     auts (world s) !! p_aut pr = Some c ->
     d ∈ select_dirs ->
     map_read (fromNeighbors c) d = Some ch ->
     chans (world s) !! ch = Some (v :: q) ->
     0 < waitGroup (ticker s) ->
     exists s',
       run (recv p d) s = Some s' /\
       auts (world s') = <[p_aut pr:=set_newState c v]> (auts (world s)) /\
       chans (world s') = <[ch:=q]> (chans (world s)) /\
       waitGroup (ticker s') = waitGroup (ticker s) - 1 /\
       tpc s' = tpc s).
Proof.
  split; [exact step_commit_inv |]. split.
  - intros w a c v1 v2 Hc.
    destruct (SetState_spec v1 a w c Hc) as (w1 & H1 & _ & _ & Hc1).
    destruct (SetState_spec v2 a w1 _ Hc1) as (w2 & H2 & _ & _ & Hc2).
    exists w1, w2. repeat split; try done.
    unfold GetState. by rewrite Hc2, Hc.
  - intros s p pr c d ch v q Hlive Hp Hpc Hc Hd Hch Hq Hwg.
    destruct (recv_applies s p pr c d ch v q Hlive Hp Hpc Hc Hd Hch Hq Hwg)
      as (s' & Hrun & Hau & Hchs & Hcnt & _ & _ & Htpc & _).
    by exists s'.
Qed.

Lemma committed_state_only_changes_on_tick_witness :
  (exists p pr,
     PReact 2 = PReact p /\ procs linear_dispatched !! p = Some pr /\
     p_pc pr = GotTick /\ p_aut pr = 2%nat /\
     "X" = newState linear_middle) /\
  (exists s',
     run (recv 1 NeighborRt) linear_sent = Some s' /\
     GetState 1 (world s') = Some "" /\
     newState <$> auts (world s') !! 1%nat = Some "X" /\
     chans (world s') !! 7%nat = Some [] /\
     waitGroup (ticker s') = 4 - 1 /\
     tpc s' = TWait).
Proof.
  destruct committed_state_only_changes_on_tick as (Hcommit & _ & Hrecv).
  split.
  - apply (Hcommit (PReact 2) linear_dispatched
             (default linear_dispatched (step (PReact 2) linear_dispatched))
             2%nat linear_middle (set_state linear_middle "X"));
      [vm_compute; reflexivity .. | discriminate].
  - destruct (Hrecv linear_sent 1%nat (mkProc 1 1 AtSelect)
                (mkGoo 1 "" ""
                   (Some (<[NeighborLf:=3%nat]> (<[NeighborRt:=6%nat]> ∅)))
                   (Some (<[NeighborLf:=2%nat]> (<[NeighborRt:=7%nat]> ∅))))
                NeighborRt 7%nat "X" [])
      as (s' & Hrun & Hau & Hchs & Hcnt & Htpc);
      [vm_compute; reflexivity .. | | vm_compute; reflexivity
       | vm_compute; reflexivity | vm_compute; reflexivity |].
    + unfold select_dirs. rewrite !elem_of_cons. auto.
    + exists s'. split; [exact Hrun |].
      split; [unfold GetState; rewrite Hau; vm_compute; reflexivity |].
      split; [rewrite Hau; vm_compute; reflexivity |].
      split; [rewrite Hchs; vm_compute; reflexivity |].
      split; [exact Hcnt | rewrite Htpc; vm_compute; reflexivity].
Defined.

(** ** A freshly constructed automaton *)




(** ** The row of five under two schedules *)

(** The schedule under which the test passes. *)
Lemma linear_scenario_settled_schedule :
  observe tick1_settled = Some ("--X--", 1, TIdle) /\
  observe (tick1_settled ++ tick2_settled) = Some ("-XXX-", 2, TIdle) /\
  observe (tick1_settled ++ tick2_settled ++ tick3_settled)
    = Some ("XXXXX", 3, TIdle) /\
  observe (tick1_settled ++ tick2_settled ++ tick3_settled
             ++ mjoin (replicate 10 tick_steady))
    = Some ("XXXXX", 13, TIdle).
Proof. repeat split; vm_compute; reflexivity. Qed.

(** C1 on the code: the same topology and the same external calls (one
    SetState before the first tick, then one Tick) give two different
    snapshots once Tick has returned, so settlement determinism does not
    hold of the program. *)
Theorem snapshot_depends_on_schedule :
  externals tick1_settled = externals tick1_raced /\
  observe tick1_settled = Some ("--X--", 1, TIdle) /\
  observe tick1_raced = Some ("--XX-", 1, TIdle) /\
  (s ← linear_sys; s' ← run tick1_settled s; GetState 3 (world s'))
    = Some "" /\
  (s ← linear_sys; s' ← run tick1_raced s; GetState 3 (world s'))
    = Some "X" /\
  ~ settlement_deterministic.
Proof.
  split; [vm_compute; reflexivity |]. split; [vm_compute; reflexivity |].
  split; [vm_compute; reflexivity |]. split; [vm_compute; reflexivity |].
  split; [vm_compute; reflexivity |].
  intros Hdet.
  assert (wire linear_script empty_world = Some linear_wired) as Hw
    by (vm_compute; reflexivity).
  destruct (run tick1_settled (launch linear_wired)) as [s1|] eqn:H1;
    [| vm_compute in H1; discriminate].
  destruct (run tick1_raced (launch linear_wired)) as [s2|] eqn:H2;
    [| vm_compute in H2; discriminate].
  assert (tpc s1 = TIdle /\ GetState 3 (world s1) = Some "") as [Hi1 Hg1].
  { vm_compute in H1. injection H1 as <-. split; vm_compute; reflexivity. }
  assert (tpc s2 = TIdle /\ GetState 3 (world s2) = Some "X") as [Hi2 Hg2].
  { vm_compute in H2. injection H2 as <-. split; vm_compute; reflexivity. }
  assert (externals tick1_settled = externals tick1_raced) as Hext
    by (vm_compute; reflexivity).
  pose proof (Hdet linear_script linear_wired tick1_settled tick1_raced s1 s2
                Hw Hext H1 H2 Hi1 Hi2 3%nat) as Habs.
  rewrite Hg1, Hg2 in Habs. discriminate.
Qed.

(** C2 on the code: in the row of five with the middle automaton set to
    "X", the first Tick can return with the states reading "--XX-". *)
Theorem linear_scenario_first_tick_race :
  (s ← linear_sys;
   s' ← run tick1_raced s;
   Some (concatStates (world s'), tpc s', crashed s',
         tickID (ticker s'), waitGroup (ticker s')))
  = Some ("--XX-", TIdle, false, 1, 0).
Proof. vm_compute. reflexivity. Qed.

(** ** A goroutine that has returned and a later Tick *)

Lemma stalled_with_pc (s : Sys) (p : nat) (pc : PC) (dest : nat)
    (pr0 : Proc) :
  procs s !! p = Some pr0 -> p_pc pr0 <> Returned ->
  (forall q pr, procs s !! q = Some pr -> p_tick pr = dest ->
                p_pc pr = Returned) ->
  forall q pr, procs (with_pc s p pc) !! q = Some pr -> p_tick pr = dest ->
               p_pc pr = Returned.
Proof.
  intros Hp Hnr Hall q pr Hq Ht.
  destruct (decide (p = q)) as [<-|Hne].
  - rewrite (procs_with_pc_eq s p pc pr0 Hp) in Hq. injection Hq as <-.
    simpl in Ht. exfalso. apply Hnr. by apply (Hall p pr0).
  - rewrite procs_with_pc_ne in Hq by done. by apply (Hall q pr).
Qed.

Lemma dests_wg_add (delta : Z) (s : Sys) :
  destinations (ticker (wg_add delta s)) = destinations (ticker s).
Proof. unfold wg_add. by case_decide. Qed.

Lemma tickID_wg_add (delta : Z) (s : Sys) :
  tickID (ticker (wg_add delta s)) = tickID (ticker s).
Proof. unfold wg_add. by case_decide. Qed.

Lemma step_keeps_stalled (a : Action) (s s' : Sys) (k : nat) :
  step a s = Some s' -> stalled s k -> stalled s' k.
Proof.
  intros Hstep (Htpc & dest & Hdest & Hall).
  destruct a; step_cases Hstep;
    try (rewrite Htpc in *; simpl in *; discriminate).
  1: { (* the hand-off needs a listener in its select *)
    exfalso.
    match goal with
    | H : procs _ !! _ = Some ?pr, E : p_pc ?pr = AtSelect |- _ =>
        pose proof (Hall _ _ H eq_refl); congruence
    end. }
  all: split; [simpl; rewrite ?tpc_wg_add; done |].
  all: exists dest; split; [simpl; rewrite ?dests_wg_add; done |].
  all: eapply stalled_with_pc;
    [ simpl; rewrite ?procs_wg_add; eassumption
    | congruence
    | simpl; rewrite ?procs_wg_add; done ].
Qed.

Lemma run_keeps_stalled (sched : list Action) (s s' : Sys) (k : nat) :
  run sched s = Some s' -> stalled s k -> stalled s' k.
Proof.
  revert s. induction sched as [|a sched IH]; intros s Hrun Hst; simpl in Hrun.
  - by injection Hrun as <-.
  - destruct (step a s) as [s1|] eqn:Hstep; [| discriminate]. simpl in Hrun.
    eapply IH; [done |]. by eapply step_keeps_stalled.
Qed.

Lemma stalled_blocks_owner (s : Sys) (k : nat) (a : Action) :
  stalled s k -> actor a = None -> step a s = None.
Proof.
  intros (Htpc & dest & Hdest & Hall) Hact.
  destruct (step a s) as [s'|] eqn:Hstep; [| done]. exfalso.
  destruct a; simpl in Hact; try discriminate; step_cases Hstep;
    try (rewrite Htpc in *; simpl in *; discriminate).
  match goal with
  | H : procs _ !! _ = Some ?pr, E : p_pc ?pr = AtSelect |- _ =>
      pose proof (Hall _ _ H eq_refl); congruence
  end.
Qed.

Lemma stalled_sys_procs : procs stalled_sys = [mkProc 0 0 Returned].
Proof. vm_compute. reflexivity. Qed.

Lemma stalled_sys_stalled : stalled stalled_sys 0.
Proof.
  split; [vm_compute; reflexivity |].
  exists 0%nat. split; [vm_compute; reflexivity |].
  intros p pr Hp _. rewrite stalled_sys_procs in Hp.
  destruct p as [|p]; simpl in Hp; [by injection Hp as <- | done].
Qed.

(** C4, as stated, fails: the only goroutine has returned before accepting
    its tick signal, Tick has been called, and no action of any goroutine
    is enabled: Tick neither fails nor returns. *)
Lemma stopped_cell_blocks_tick :
  pc_of stalled_sys 0 = Some Returned /\
  tpc stalled_sys = TDispatch 0 /\
  crashed stalled_sys = false /\
  forall a, step a stalled_sys = None.
Proof.
  split; [vm_compute; reflexivity |]. split; [vm_compute; reflexivity |].
  split; [vm_compute; reflexivity |].
  intros a. destruct (actor a) as [p|] eqn:Hact.
  - destruct (step a stalled_sys) as [s'|] eqn:Hstep; [| done]. exfalso.
    destruct a; simpl in Hact; try discriminate; injection Hact as ->;
      unfold step in Hstep; rewrite stalled_sys_procs in Hstep;
      (destruct p as [|p]; simpl in Hstep; [| discriminate]);
      repeat (simplify_option_eq || case_match); discriminate.
  - apply (stalled_blocks_owner stalled_sys 0);
      [exact stalled_sys_stalled | exact Hact].
Qed.

(** C4, amended: when every goroutine listening on the tick channel the
    ticker has reached has returned, Tick does not fail; whatever the other
    goroutines do afterwards, the ticker stays at that hand-off and its
    owner can take no action, so Tick never returns. *)
Theorem Tick_blocks_on_stopped_cell (s s' : Sys) (k : nat)
    (sched : list Action) :
  stalled s k ->
  run sched s = Some s' ->
  tpc s' = TDispatch k /\
  forall a, actor a = None -> step a s' = None.
Proof.
  intros Hst Hrun.
  pose proof (run_keeps_stalled sched s s' k Hrun Hst) as Hst'.
  split; [apply Hst' |].
  intros a Ha. by apply (stalled_blocks_owner s' k).
Qed.

Lemma Tick_blocks_on_stopped_cell_witness :
  tpc stalled_sys = TDispatch 0 /\
  forall a, actor a = None -> step a stalled_sys = None.
Proof.
  apply (Tick_blocks_on_stopped_cell stalled_sys stalled_sys 0 []).
  - exact stalled_sys_stalled.
  - reflexivity.
Defined.

(** ** Accounting of the WaitGroup counter *)

Lemma pc_credit_nonneg (pc : PC) : 0 <= pc_credit pc.
Proof. destruct pc as [| |? [?|]| |]; simpl; lia. Qed.

Lemma owed_nonneg (l : list Proc) : 0 <= owed l.
Proof.
  induction l as [|pr l IH]; simpl; [lia |].
  pose proof (pc_credit_nonneg (p_pc pr)). lia.
Qed.

Lemma in_flight_nonneg (l : list (list State)) : 0 <= in_flight l.
Proof. induction l as [|q l IH]; simpl; lia. Qed.

Lemma owed_alter (f : Proc -> Proc) (p : nat) (l : list Proc) (pr : Proc) :
  l !! p = Some pr ->
  owed (alter f p l) = owed l - pc_credit (p_pc pr) + pc_credit (p_pc (f pr)).
Proof.
  revert p. induction l as [|x l IH]; intros p Hp; [done |].
  destruct p as [|p]; simpl in *.
  - injection Hp as ->. lia.
  - specialize (IH p Hp). unfold alter in IH. rewrite IH. lia.
Qed.

Lemma in_flight_insert (ch : nat) (l : list (list State))
    (q q' : list State) :
  l !! ch = Some q ->
  in_flight (<[ch:=q']> l)
    = in_flight l - Z.of_nat (length q) + Z.of_nat (length q').
Proof.
  revert ch. induction l as [|x l IH]; intros ch Hch; [done |].
  destruct ch as [|ch].
  - injection Hch as ->.
    change (Z.of_nat (length q') + in_flight l
            = Z.of_nat (length q) + in_flight l - Z.of_nat (length q)
              + Z.of_nat (length q')).
    lia.
  - change (Z.of_nat (length x) + in_flight (<[ch:=q']> l)
            = Z.of_nat (length x) + in_flight l - Z.of_nat (length q)
              + Z.of_nat (length q')).
    rewrite (IH ch Hch). lia.
Qed.

Lemma owed_zero (l : list Proc) (p : nat) (pr : Proc) :
  owed l = 0 -> l !! p = Some pr -> pc_credit (p_pc pr) = 0.
Proof.
  revert p. induction l as [|x l IH]; intros p Hz Hp; [done |].
  simpl in Hz. pose proof (pc_credit_nonneg (p_pc x)).
  pose proof (owed_nonneg l).
  destruct p as [|p]; simpl in Hp.
  - injection Hp as <-. lia.
  - apply (IH p); [lia | done].
Qed.

Lemma in_flight_zero (l : list (list State)) (ch : nat) (q : list State) :
  in_flight l = 0 -> l !! ch = Some q -> q = [].
Proof.
  revert ch. induction l as [|x l IH]; intros ch Hz Hch; [done |].
  simpl in Hz. pose proof (in_flight_nonneg l).
  destruct ch as [|ch]; simpl in Hch.
  - injection Hch as <-. apply length_zero_iff_nil. lia.
  - apply (IH ch); [lia | done].
Qed.

Lemma credits_with_pc (s : Sys) (p : nat) (pc : PC) (pr : Proc) :
  procs s !! p = Some pr ->
  credits (with_pc s p pc) = credits s - pc_credit (p_pc pr) + pc_credit pc.
Proof.
  intros Hp. unfold credits, with_pc. simpl.
  rewrite (owed_alter _ p (procs s) pr Hp). simpl. lia.
Qed.

Lemma credits_set_chan (s : Sys) (ch : nat) (q q' : list State) :
  chans (world s) !! ch = Some q ->
  credits (set_chan s ch q')
    = credits s - Z.of_nat (length q) + Z.of_nat (length q').
Proof.
  intros Hq. unfold credits, set_chan. simpl.
  rewrite (in_flight_insert ch _ q q' Hq). lia.
Qed.

Lemma credits_set_aut (s : Sys) (a : nat) (c : GooCellAut) :
  credits (set_aut s a c) = credits s.
Proof. reflexivity. Qed.

Lemma credits_nonneg (s : Sys) :
  (forall k, tpc s = TDispatch k ->
             (k < length (destinations (ticker s)))%nat) ->
  0 <= credits s.
Proof.
  intros Hk. unfold credits.
  pose proof (owed_nonneg (procs s)).
  pose proof (in_flight_nonneg (chans (world s))).
  assert (0 <= undispatched (ticker s) (tpc s)); [| lia].
  destruct (tpc s) as [|k|] eqn:E; simpl; try lia.
  specialize (Hk k eq_refl). lia.
Qed.

Lemma credits_ge_owed (s : Sys) (p : nat) (pr : Proc) :
  (forall k, tpc s = TDispatch k ->
             (k < length (destinations (ticker s)))%nat) ->
  procs s !! p = Some pr ->
  pc_credit (p_pc pr) <= credits s.
Proof.
  intros Hk Hp. unfold credits.
  pose proof (in_flight_nonneg (chans (world s))).
  assert (0 <= undispatched (ticker s) (tpc s)).
  { destruct (tpc s) as [|k|] eqn:E; simpl; try lia.
    specialize (Hk k eq_refl). lia. }
  assert (pc_credit (p_pc pr) <= owed (procs s)); [| lia].
  clear -Hp. revert p Hp. induction (procs s) as [|x l IH]; intros p Hp; [done |].
  simpl. pose proof (pc_credit_nonneg (p_pc x)). pose proof (owed_nonneg l).
  destruct p as [|p]; simpl in Hp.
  - injection Hp as ->. lia.
  - specialize (IH p Hp). lia.
Qed.

Lemma credits_with_tpc (s : Sys) (t : TPC) :
  credits (with_tpc s t)
    = credits s - undispatched (ticker s) (tpc s) + undispatched (ticker s) t.
Proof. unfold credits, with_tpc. simpl. lia. Qed.

Lemma undispatched_after (t t' : Ticker) (k : nat) :
  destinations t = destinations t' ->
  (k <= length (destinations t'))%nat ->
  undispatched t (after_dispatch t' k)
    = Z.of_nat (length (destinations t')) - Z.of_nat k.
Proof.
  intros Hd Hk. unfold after_dispatch. case_decide; simpl; rewrite ?Hd; lia.
Qed.

Lemma after_dispatch_range (t : Ticker) (k k' : nat) :
  after_dispatch t k = TDispatch k' -> (k' < length (destinations t))%nat.
Proof. unfold after_dispatch. case_decide; intros; simplify_eq. done. Qed.

Lemma after_dispatch_not_idle (t : Ticker) (k : nat) :
  after_dispatch t k <> TIdle.
Proof. unfold after_dispatch. by case_decide. Qed.

Lemma step_balanced (a : Action) (s s' : Sys) :
  step a s = Some s' -> balanced s -> balanced s'.
Proof.
  intros Hstep Hbal.
  assert (crashed s = false) as Hlive.
  { unfold step, guard in Hstep. destruct (crashed s); [discriminate | done]. }
  destruct (Hbal Hlive) as (Hwg & Hk & Hidle).
  pose proof (credits_nonneg s Hk) as Hnn.
  destruct a; step_cases Hstep; name_step_hyps.
  all: try (pose proof (credits_ge_owed s _ _ Hk Hp) as Hge;
            rewrite Hpc in Hge; simpl in Hge).
  all: try rewrite wg_add_ok by lia.
  - (* MTick *)
    assert (tpc s = TIdle) as Hi by (destruct (tpc s); done).
    intros _. split; [| split].
    + rewrite credits_with_tpc. simpl. rewrite undispatched_after; [| reflexivity | lia].
      change (credits (with_ticker s _)) with (credits s).
      rewrite Hi. simpl. specialize (Hidle Hi). lia.
    + intros k E. simpl in *. by apply after_dispatch_range in E.
    + intros E. simpl in E. by apply after_dispatch_not_idle in E.
  - (* MSetState *)
    unfold SetState in *. simplify_option_eq. intros _. done.
  - (* MCloseDone *)
    intros _. done.
  - (* TSend *)
    match goal with H : tpc s = TDispatch _ |- _ => rename H into Ht end.
    pose proof (Hk _ eq_refl) as Hlt.
    intros _. split; [| split].
    + rewrite credits_with_tpc. simpl.
      erewrite credits_with_pc by exact Hp.
      rewrite undispatched_after; [| reflexivity | lia].
      rewrite Hpc, Ht. simpl. lia.
    + intros k' E. simpl in *. by apply after_dispatch_range in E.
    + intros E. simpl in E. by apply after_dispatch_not_idle in E.
  - (* TWake *)
    match goal with H : tpc s = TWait |- _ => rename H into Ht end.
    intros _. split; [| split].
    + rewrite credits_with_tpc. simpl.
      change (credits (with_ticker s _)) with (credits s).
      rewrite Ht. simpl. lia.
    + intros k' E. discriminate.
    + intros _. simpl. done.
  - (* PReact, equal *)
    intros _. split; [| split].
    + erewrite credits_with_pc by exact Hp. rewrite Hpc. simpl. lia.
    + exact Hk.
    + intros E. specialize (Hidle E). simpl in *. lia.
  - (* PReact, changed *)
    intros _. split; [| split].
    + erewrite credits_with_pc by exact Hp. rewrite Hpc. simpl.
      rewrite credits_set_aut. lia.
    + exact Hk.
    + intros E. specialize (Hidle E). simpl in *. lia.
  - (* PAdd *)
    intros _. split; [| split].
    + erewrite credits_with_pc by exact Hp. rewrite Hpc. simpl.
      change (credits (with_ticker s _)) with (credits s). lia.
    + exact Hk.
    + intros E. specialize (Hidle E). simpl in *. lia.
  - (* PPut *)
    intros _. split; [| split].
    + erewrite credits_with_pc by exact Hp. rewrite Hpc. simpl.
      erewrite credits_set_chan by exact Hq.
      rewrite length_app. simpl. lia.
    + exact Hk.
    + intros E. specialize (Hidle E). simpl in *. lia.
  - (* PAllSent *)
    intros _. split; [| split].
    + erewrite credits_with_pc by exact Hp. rewrite Hpc. simpl.
      change (credits (with_ticker s _)) with (credits s). lia.
    + exact Hk.
    + intros E. specialize (Hidle E). simpl in *. lia.
  - (* PRecv *)
    intros _. split; [| split].
    + erewrite credits_with_pc by exact Hp. rewrite Hpc. simpl.
      rewrite credits_set_aut.
      erewrite credits_set_chan by exact Hq. simpl. lia.
    + exact Hk.
    + intros E. exact (Hidle E).
  - (* PRecvDone *)
    intros _. split; [| split].
    + erewrite credits_with_pc by exact Hp. rewrite Hpc. simpl.
      change (credits (with_ticker s _)) with (credits s). lia.
    + exact Hk.
    + intros E. specialize (Hidle E). simpl in *. lia.
  - (* PDone *)
    intros _. split; [| split].
    + erewrite credits_with_pc by exact Hp. rewrite Hpc. simpl. lia.
    + exact Hk.
    + exact Hidle.
Qed.

Lemma in_flight_app (l1 l2 : list (list State)) :
  in_flight (l1 ++ l2) = in_flight l1 + in_flight l2.
Proof. induction l1 as [|q l1 IH]; simpl; [lia |]. rewrite IH. lia. Qed.

Lemma owed_app (l1 l2 : list Proc) : owed (l1 ++ l2) = owed l1 + owed l2.
Proof. induction l1 as [|q l1 IH]; simpl; [lia |]. rewrite IH. lia. Qed.

Lemma wire_op_in_flight (op : WireOp) (w w' : World) :
  wire_op op w = Some w' -> in_flight (chans w') = in_flight (chans w).
Proof.
  destruct op as [i|d a b|a v]; simpl; intros H.
  - by injection H as <-.
  - destruct (AddNeighbor_inv _ _ _ _ _ H) as [Ha Hb].
    destruct (AddNeighbor_initialized d a b w Ha Hb) as (w2 & Hw2 & Hr).
    assert (w2 = w') as -> by congruence.
    destruct Hr as [-> _]. rewrite in_flight_app. simpl. lia.
  - unfold SetState in H. by simplify_option_eq.
Qed.

Lemma wire_in_flight (ops : list WireOp) (w w' : World) :
  wire ops w = Some w' -> in_flight (chans w') = in_flight (chans w).
Proof.
  revert w. induction ops as [|op ops IH]; intros w H; simpl in H.
  - by injection H as <-.
  - destruct (wire_op op w) as [w1|] eqn:Hop; [| discriminate]. simpl in H.
    rewrite (IH w1 H). by eapply wire_op_in_flight.
Qed.

Lemma start_all_cons (a : nat) (autl : list nat) (s : Sys) :
  start_all (a :: autl) s
  = start_all autl
      (go_Start a (length (destinations (ticker s)))
                (with_ticker s (snd (TickChan (ticker s))))).
Proof. reflexivity. Qed.

Lemma start_all_spec (autl : list nat) (s : Sys) :
  world (start_all autl s) = world s /\
  tpc (start_all autl s) = tpc s /\
  crashed (start_all autl s) = crashed s /\
  done_closed (start_all autl s) = done_closed s /\
  waitGroup (ticker (start_all autl s)) = waitGroup (ticker s) /\
  tickID (ticker (start_all autl s)) = tickID (ticker s) /\
  owed (procs (start_all autl s)) = owed (procs s) /\
  length (destinations (ticker (start_all autl s)))
    = (length (destinations (ticker s)) + length autl)%nat /\
  length (procs (start_all autl s)) = (length (procs s) + length autl)%nat.
Proof.
  revert s. induction autl as [|a autl IH]; intros s.
  - simpl. repeat split; lia.
  - rewrite start_all_cons.
    destruct (IH (go_Start a (length (destinations (ticker s)))
                    (with_ticker s (snd (TickChan (ticker s))))))
      as (H1 & H2 & H3 & H4 & H5 & H6 & H7 & H8 & H9).
    rewrite H1, H2, H3, H4, H5, H6, H7, H8, H9. simpl.
    rewrite owed_app, !length_app. simpl. repeat split; lia.
Qed.

Lemma launch_balanced (w : World) :
  in_flight (chans w) = 0 -> balanced (launch w).
Proof.
  intros Hw _. unfold launch.
  destruct (start_all_spec (seq 0 (length (auts w)))
              (mkSys w (mkTicker 0 [] 0) TIdle [] false false))
    as (H1 & H2 & H3 & H4 & H5 & H6 & H7 & H8 & H9).
  simpl in *. unfold credits. rewrite H1, H2, H5, H7, Hw. simpl.
  repeat split; try done.
Qed.

Lemma run_balanced (sched : list Action) (s s' : Sys) :
  run sched s = Some s' -> balanced s -> balanced s'.
Proof.
  revert s. induction sched as [|a sched IH]; intros s Hrun Hb; simpl in Hrun.
  - by injection Hrun as <-.
  - destruct (step a s) as [s1|] eqn:Hstep; [| discriminate]. simpl in Hrun.
    eapply IH; [done |]. by eapply step_balanced.
Qed.

Lemma reachable_balanced (s : Sys) : reachable s -> balanced s.
Proof.
  intros (ops & w & sched & Hw & Hrun).
  eapply run_balanced; [done |]. apply launch_balanced.
  by rewrite (wire_in_flight ops empty_world w Hw).
Qed.

(** ** The ticker *)





(** What the owner of the ticker can do while [Tick] dispatches: only the
    hand-off to a goroutine that sits in its select and listens on the
    current destination. *)
Lemma owner_step_dispatch (a : Action) (s s' : Sys) (k : nat) :
  tpc s = TDispatch k -> actor a = None -> step a s = Some s' ->
  exists p pr,
    a = TSend p /\ procs s !! p = Some pr /\
    destinations (ticker s) !! k = Some (p_tick pr) /\
    p_pc pr = AtSelect /\
    s' = with_tpc (with_pc s p GotTick) (after_dispatch (ticker s) (S k)).
Proof.
  intros Htpc Hact Hstep.
  destruct a; simpl in Hact; try discriminate; step_cases Hstep;
    try (rewrite Htpc in *; simpl in *; discriminate).
  simplify_eq. eauto 10.
Qed.

(** What it can do inside [Wait]: only return, and only at counter zero. *)
Lemma owner_step_wait (a : Action) (s s' : Sys) :
  tpc s = TWait -> actor a = None -> step a s = Some s' ->
  a = TWake /\ waitGroup (ticker s) = 0 /\
  s' = with_tpc (with_ticker s (mkTicker (int64 (tickID (ticker s) + 1))
                                         (destinations (ticker s))
                                         (waitGroup (ticker s))))
                TIdle.
Proof.
  intros Htpc Hact Hstep.
  destruct a; simpl in Hact; try discriminate; step_cases Hstep;
    try (rewrite Htpc in *; simpl in *; discriminate).
  done.
Qed.

Lemma proc_step_tpc (a : Action) (s s' : Sys) (p : nat) :
  actor a = Some p -> step a s = Some s' -> tpc s' = tpc s.
Proof.
  intros Hact Hstep.
  destruct a; simpl in Hact; try discriminate; step_cases Hstep;
    simpl; rewrite ?tpc_wg_add; done.
Qed.

Lemma p_tick_alter (l : list Proc) (p q : nat) (pc : PC) :
  p_tick <$> alter (fun pr => mkProc (p_aut pr) (p_tick pr) pc) p l !! q
  = p_tick <$> l !! q.
Proof.
  destruct (decide (p = q)) as [->|Hne].
  - rewrite list_lookup_alter_eq. by destruct (l !! q).
  - by rewrite list_lookup_alter_ne.
Qed.

(** No step changes the destinations or the tick channel a goroutine
    listens on. *)
Lemma step_frame (a : Action) (s s' : Sys) :
  step a s = Some s' ->
  destinations (ticker s') = destinations (ticker s) /\
  forall q, p_tick <$> procs s' !! q = p_tick <$> procs s !! q.
Proof.
  intros Hstep.
  destruct a; step_cases Hstep;
    (split; [simpl; rewrite ?dests_wg_add; done |]); intros q;
    simpl; rewrite ?procs_wg_add, ?p_tick_alter; done.
Qed.

Lemma wait_trace (sched : list Action) (s s' : Sys) :
  tpc s = TWait -> TWake ∉ sched -> run sched s = Some s' ->
  tpc s' = TWait /\ owner_actions sched = [].
Proof.
  revert s. induction sched as [|a sched IH]; intros s Htpc Hnw Hrun;
    simpl in Hrun.
  - injection Hrun as <-. done.
  - destruct (step a s) as [s1|] eqn:Hstep; [| discriminate]. simpl in Hrun.
    apply not_elem_of_cons in Hnw as [Hne Hnw].
    unfold owner_actions. rewrite filter_cons.
    destruct (actor a) as [p|] eqn:Hact.
    + rewrite decide_False by done.
      apply (IH s1); [| done | done].
      by rewrite (proc_step_tpc a s s1 p Hact Hstep).
    + exfalso. by destruct (owner_step_wait a s s1 Htpc Hact Hstep) as [-> _].
Qed.

(** From the hand-off to [destinations[k]] up to [Wait]: the owner of the
    ticker performs exactly one hand-off per remaining destination, in
    order, each to a goroutine that listens on that destination. *)
Lemma dispatch_trace (sched : list Action) :
  forall (s s' : Sys) (k : nat),
    tpc s = TDispatch k ->
    (k < length (destinations (ticker s)))%nat ->
    TWake ∉ sched ->
    run sched s = Some s' ->
    tpc s' = TWait ->
    exists ps,
      owner_actions sched = TSend <$> ps /\
      length ps = (length (destinations (ticker s)) - k)%nat /\
      forall j p, ps !! j = Some p ->
        exists dest, destinations (ticker s) !! (k + j)%nat = Some dest /\
                     p_tick <$> procs s !! p = Some dest.
Proof.
  induction sched as [|a sched IH]; intros s s' k Htpc Hk Hnw Hrun Hend;
    simpl in Hrun.
  - injection Hrun as <-. congruence.
  - destruct (step a s) as [s1|] eqn:Hstep; [| discriminate]. simpl in Hrun.
    apply not_elem_of_cons in Hnw as [Hne Hnw].
    destruct (step_frame a s s1 Hstep) as [Hds Hticks].
    unfold owner_actions. rewrite filter_cons.
    destruct (actor a) as [p|] eqn:Hact.
    + rewrite decide_False by done.
      destruct (IH s1 s' k) as (ps & Hps & Hlen & Hall); try done.
      * by rewrite (proc_step_tpc a s s1 p Hact Hstep).
      * by rewrite Hds.
      * exists ps. split; [done |]. split; [by rewrite <- Hds |].
        intros j q Hq. destruct (Hall j q Hq) as (dest & Hd & Ht).
        exists dest. by rewrite <- Hds, <- Hticks.
    + rewrite decide_True by done.
      destruct (owner_step_dispatch a s s1 k Htpc Hact Hstep)
        as (p & pr & -> & Hp & Hdest & Hpc & Hs1).
      assert (tpc s1 = after_dispatch (ticker s) (S k)) as Htpc1
        by (by rewrite Hs1).
      unfold after_dispatch in Htpc1. case_decide as Hlt.
      * destruct (IH s1 s' (S k)) as (ps & Hps & Hlen & Hall); try done.
        { by rewrite Hds. }
        exists (p :: ps). split; [by rewrite fmap_cons, <- Hps |].
        split; [simpl; rewrite Hlen, Hds; lia |].
        intros [|j] q Hq; simpl in Hq.
        -- injection Hq as <-. exists (p_tick pr).
           rewrite Nat.add_0_r, Hp. done.
        -- destruct (Hall j q Hq) as (dest & Hd & Ht).
           exists dest. rewrite <- Hds, <- Hticks.
           by replace (k + S j)%nat with (S k + j)%nat by lia.
      * destruct (wait_trace sched s1 s' Htpc1 Hnw Hrun) as [_ Hnone].
        exists [p]. split; [fold (owner_actions sched); by rewrite Hnone |].
        split; [simpl; lia |].
        intros [|j] q Hq; simpl in Hq; [| done].
        injection Hq as <-. exists (p_tick pr).
        rewrite Nat.add_0_r, Hp. done.
Qed.

Lemma run_frame (sched : list Action) (s s' : Sys) :
  run sched s = Some s' ->
  destinations (ticker s') = destinations (ticker s).
Proof.
  revert s. induction sched as [|a sched IH]; intros s Hrun; simpl in Hrun.
  - by injection Hrun as <-.
  - destruct (step a s) as [s1|] eqn:Hstep; [| discriminate]. simpl in Hrun.
    rewrite (IH s1 Hrun). by destruct (step_frame a s s1 Hstep).
Qed.





(** * Further properties of the code *)

(** ** Wiring *)

(** X1: AddNeighbor goes through exactly when both automata have their
    maps, as NewGooCellAut makes them; on a zero-valued GooCellAut the
    assignment to the nil map panics. *)
Theorem AddNeighbor_succeeds_iff (d : Z) (a b : nat) (w : World) :
  is_Some (AddNeighbor d a b w) <-> initialized w a /\ initialized w b.
Proof.
  split.
  - intros [w' Hw']. by eapply AddNeighbor_inv.
  - intros [Ha Hb].
    destruct (AddNeighbor_initialized d a b w Ha Hb) as (w' & Hw' & _).
    by exists w'.
Qed.

Lemma rewired_of_AddNeighbor (d : Z) (a b : nat) (w w' : World) :
  AddNeighbor d a b w = Some w' -> rewired d a b w w'.
Proof.
  intros Hadd.
  destruct (AddNeighbor_inv _ _ _ _ _ Hadd) as [Ha Hb].
  destruct (AddNeighbor_initialized d a b w Ha Hb) as (w2 & Hw2 & Hr).
  by assert (w2 = w') as -> by congruence.
Qed.

Lemma map_read_is_Some (m : option (gmap Z nat)) (k : Z) (ch : nat) :
  map_read m k = Some ch -> is_Some m.
Proof. destruct m; [eauto | discriminate]. Qed.

Lemma rewired_states (d : Z) (a b : nat) (w w' : World) :
  rewired d a b w w' ->
  forall x, state <$> auts w' !! x = state <$> auts w !! x /\
            newState <$> auts w' !! x = newState <$> auts w !! x.
Proof.
  intros (_ & Hlen & Hoth & ca & cb & ca' & cb' & Hca & Hcb & Hca' & Hcb'
          & _ & _ & _ & _ & Hsa & Hna & Hsb & Hnb) x.
  destruct (decide (x = a)) as [->|Hxa].
  { rewrite Hca, Hca'. simpl. by rewrite Hsa, Hna. }
  destruct (decide (x = b)) as [->|Hxb].
  { rewrite Hcb, Hcb'. simpl. by rewrite Hsb, Hnb. }
  by rewrite Hoth.
Qed.

(** X3: AddNeighbor touches the link tables only: the number of automata,
    every committed state and every pending state stay as they were. *)
Theorem AddNeighbor_keeps_states (d : Z) (a b : nat) (w w' : World) :
  AddNeighbor d a b w = Some w' ->
  length (auts w') = length (auts w) /\
  forall x, GetState x w' = GetState x w /\
            newState <$> auts w' !! x = newState <$> auts w !! x.
Proof.
  intros Hadd.
  pose proof (rewired_of_AddNeighbor d a b w w' Hadd) as Hr.
  split; [apply Hr |]. intros x. unfold GetState.
  apply (rewired_states d a b w w' Hr).
Qed.

Lemma AddNeighbor_keeps_states_witness :
  length (auts (default empty_world (AddNeighbor NeighborLf 1 0 once_wired)))
    = length (auts once_wired) /\
  forall x,
    GetState x (default empty_world (AddNeighbor NeighborLf 1 0 once_wired))
      = GetState x once_wired /\
    newState <$> auts (default empty_world
                         (AddNeighbor NeighborLf 1 0 once_wired)) !! x
      = newState <$> auts once_wired !! x.
Proof.
  apply (AddNeighbor_keeps_states NeighborLf 1 0 once_wired).
  vm_compute. reflexivity.
Defined.

Lemma initialized_AddNeighbor (d : Z) (a b : nat) (w w' : World) (x : nat) :
  AddNeighbor d a b w = Some w' -> initialized w x -> initialized w' x.
Proof.
  intros Hadd (cx & Hx & Htx & Hfx).
  pose proof (Recip_neq d) as Hne.
  destruct (rewired_of_AddNeighbor d a b w w' Hadd)
    as (_ & _ & Hoth & ca & cb & ca' & cb' & Hca & Hcb & Hca' & Hcb'
        & Hat & Haf & Hbt & Hbf & _).
  destruct (decide (x = a)) as [->|Hxa].
  { exists ca'. split; [done |]. split.
    - apply (map_read_is_Some _ d (S (length (chans w)))).
      by rewrite Hat, decide_True.
    - apply (map_read_is_Some _ d (length (chans w))).
      by rewrite Haf, decide_True. }
  destruct (decide (x = b)) as [->|Hxb].
  { exists cb'. split; [done |]. split.
    - apply (map_read_is_Some _ (Recip d) (length (chans w))).
      rewrite Hbt, decide_False by (intros [_ E]; by apply Hne).
      by rewrite decide_True.
    - apply (map_read_is_Some _ (Recip d) (S (length (chans w)))).
      rewrite Hbf, decide_False by (intros [_ E]; by apply Hne).
      by rewrite decide_True. }
  exists cx. by rewrite Hoth.
Qed.

Lemma well_wired_empty : well_wired empty_world.
Proof.
  split; [| split].
  - simpl. lia.
  - intros a c d ch Ha. by destruct a.
  - intros ch q Hq. by destruct ch.
Qed.

Lemma well_wired_wire_op (op : WireOp) (w w' : World) :
  wire_op op w = Some w' -> well_wired w -> well_wired w'.
Proof.
  intros Hop (Hinit & Halloc & Hempty).
  destruct op as [i|d a b|a v]; simpl in Hop.
  - injection Hop as <-. split; [| split].
    + intros a Ha. simpl in Ha. rewrite length_app in Ha. simpl in Ha.
      destruct (decide (a < length (auts w))%nat) as [Hlt|Hge].
      * destruct (Hinit a Hlt) as (c & Hc & Hm). exists c.
        split; [| done]. simpl. by rewrite lookup_app_l.
      * exists (NewGooCellAut i). split; [| simpl; eauto].
        simpl. rewrite lookup_app_r by lia.
        by replace (a - length (auts w))%nat with 0%nat by lia.
    + by apply chans_allocated_new_aut.
    + done.
  - destruct (rewired_of_AddNeighbor d a b w w' Hop) as (Hch & Hlen & _).
    split; [| split].
    + intros x Hx. rewrite Hlen in Hx.
      apply (initialized_AddNeighbor d a b w w'); [done | by apply Hinit].
    + by apply (chans_allocated_AddNeighbor d a b w w').
    + intros ch q. rewrite Hch. intros Hq.
      apply lookup_app_Some in Hq as [Hq|[_ Hq]]; [by eapply Hempty |].
      destruct (ch - length (chans w))%nat as [|[|?]]; simpl in Hq;
        by simplify_eq.
  - unfold SetState in Hop.
    destruct (auts w !! a) as [c|] eqn:Hc; [| discriminate].
    simpl in Hop. injection Hop as <-.
    split; [| split]; simpl.
    + intros x Hx. rewrite length_insert in Hx.
      destruct (Hinit x Hx) as (cx & Hcx & Hm).
      destruct (decide (x = a)) as [->|Hne].
      * exists (set_newState c v). simpl.
        rewrite list_lookup_insert_eq by done.
        split; [done |]. by assert (cx = c) as -> by congruence.
      * exists cx. simpl. by rewrite list_lookup_insert_ne.
    + intros x cx k ch Hx Hk. simpl in *.
      apply list_lookup_insert_Some in Hx as [(-> & <- & _)|[_ Hx]].
      * by apply (Halloc x c k ch).
      * by apply (Halloc x cx k ch).
    + done.
Qed.

Lemma well_wired_wire (ops : list WireOp) (w w' : World) :
  wire ops w = Some w' -> well_wired w -> well_wired w'.
Proof.
  revert w. induction ops as [|op ops IH]; intros w H Hw; simpl in H.
  - by injection H as <-.
  - destruct (wire_op op w) as [w1|] eqn:Hop; [| discriminate]. simpl in H.
    apply (IH w1 H). by eapply well_wired_wire_op.
Qed.

(** X2: in every world built from NewGooCellAut, AddNeighbor and SetState
    calls, all automata have their maps, every channel in a slot has been
    made, no channel holds a message, and any further AddNeighbor or
    SetState on automata of that world goes through. *)
Theorem wired_world_well_wired (ops : list WireOp) (w : World) :
  wire ops empty_world = Some w ->
  well_wired w /\
  forall d a b v,
    (a < length (auts w))%nat -> (b < length (auts w))%nat ->
    is_Some (AddNeighbor d a b w) /\ is_Some (SetState v a w).
Proof.
  intros Hw.
  pose proof (well_wired_wire ops empty_world w Hw well_wired_empty) as Hww.
  split; [done |]. intros d a b v Ha Hb. split.
  - assert (initialized w a) as Hia by (by apply Hww).
    assert (initialized w b) as Hib by (by apply Hww).
    destruct (AddNeighbor_initialized d a b w Hia Hib) as (w' & Hw' & _).
    by exists w'.
  - destruct (proj1 Hww a Ha) as (c & Hc & _).
    destruct (SetState_spec v a w c Hc) as (w' & Hw' & _). by exists w'.
Qed.

Lemma wired_world_well_wired_witness :
  well_wired linear_wired /\
  forall d a b v,
    (a < length (auts linear_wired))%nat ->
    (b < length (auts linear_wired))%nat ->
    is_Some (AddNeighbor d a b linear_wired) /\
    is_Some (SetState v a linear_wired).
Proof.
  apply (wired_world_well_wired linear_script linear_wired).
  vm_compute. reflexivity.
Defined.

(** X4: wiring one adjacency from both sides, as the test does
    (A.AddNeighbor(d, B) then B.AddNeighbor(d.Recip(), A)), leaves one link
    per direction: A sends for d on the channel B receives on for
    d.Recip(), B sends for d.Recip() on the channel A receives on for d,
    all made by the second call; the two channels of the first call are
    left in no slot of any automaton. *)
Theorem two_sided_wiring (d : Z) (a b : nat) (w w1 w2 : World) :
  is_uint8 d -> a <> b -> chans_allocated w ->
  AddNeighbor d a b w = Some w1 ->
  AddNeighbor (Recip d) b a w1 = Some w2 ->
  exists ca cb,
    auts w2 !! a = Some ca /\ auts w2 !! b = Some cb /\
    map_read (toNeighbors ca) d = Some (length (chans w) + 2)%nat /\
    map_read (fromNeighbors cb) (Recip d) = Some (length (chans w) + 2)%nat /\
    map_read (toNeighbors cb) (Recip d) = Some (length (chans w) + 3)%nat /\
    map_read (fromNeighbors ca) d = Some (length (chans w) + 3)%nat /\
    orphaned w2 (length (chans w)) /\
    orphaned w2 (length (chans w) + 1).
Proof.
  intros Hd Hab Hwf H1 H2.
  pose proof (Recip_neq d) as Hne.
  assert (Recip (Recip d) = d) as Hinv.
  { rewrite (Recip_uint8 (Recip d)) by apply Recip_range.
    rewrite Recip_uint8 by done. lia. }
  destruct (rewired_of_AddNeighbor d a b w w1 H1)
    as (Hch1 & _ & Hoth1 & ca0 & cb0 & ca1 & cb1 & Hca0 & Hcb0 & Hca1 & Hcb1
        & Hat1 & Haf1 & Hbt1 & Hbf1 & _).
  destruct (rewired_of_AddNeighbor (Recip d) b a w1 w2 H2)
    as (_ & _ & Hoth2 & cb1' & ca1' & cb2 & ca2 & Hcb1' & Hca1' & Hcb2 & Hca2
        & Hbt2 & Hbf2 & Hat2 & Haf2 & _).
  assert (cb1' = cb1) as -> by congruence.
  assert (ca1' = ca1) as -> by congruence.
  assert (length (chans w1) = length (chans w) + 2)%nat as Hn1
    by (rewrite Hch1, length_app; simpl; lia).
  rewrite Hinv, Hn1 in *.
  exists ca2, cb2. split; [done |]. split; [done |].
  split; [rewrite Hat2; slot_value |].
  split; [rewrite Hbf2; slot_value |].
  split; [rewrite Hbt2; slot_value |].
  split; [rewrite Haf2; slot_value |].
  assert (forall x cx k ch, auts w2 !! x = Some cx ->
            map_read (toNeighbors cx) k = Some ch \/
            map_read (fromNeighbors cx) k = Some ch ->
            (ch < length (chans w))%nat \/ (length (chans w) + 2 <= ch)%nat)
    as Hslots.
  { intros x cx k ch Hx Hk.
    assert (forall c0, auts w !! x = Some c0 ->
              map_read (toNeighbors c0) k = Some ch \/
              map_read (fromNeighbors c0) k = Some ch ->
              (ch < length (chans w))%nat) as Hold
      by (intros c0 Hc0 Hor; by apply (Hwf x c0 k ch)).
    destruct (decide (x = a)) as [->|Hxa].
    { assert (cx = ca2) as -> by congruence.
      destruct Hk as [Hk|Hk];
        [rewrite Hat2 in Hk | rewrite Haf2 in Hk];
        repeat case_decide; simplify_eq; try lia;
        [rewrite Hat1 in Hk | rewrite Haf1 in Hk];
        repeat case_decide; simplify_eq; try lia;
        left; eapply Hold; eauto. }
    destruct (decide (x = b)) as [->|Hxb].
    { assert (cx = cb2) as -> by congruence.
      destruct Hk as [Hk|Hk];
        [rewrite Hbt2 in Hk | rewrite Hbf2 in Hk];
        repeat case_decide; simplify_eq; try lia;
        [rewrite Hbt1 in Hk | rewrite Hbf1 in Hk];
        repeat case_decide; simplify_eq; try lia;
        left; eapply Hold; eauto. }
    rewrite Hoth2, Hoth1 in Hx by done. left. by eapply Hold. }
  split.
  - intros x cx k Hx. split; intros Hk.
    + pose proof (Hslots x cx k _ Hx (or_introl Hk)). lia.
    + pose proof (Hslots x cx k _ Hx (or_intror Hk)). lia.
  - intros x cx k Hx. split; intros Hk.
    + pose proof (Hslots x cx k _ Hx (or_introl Hk)). lia.
    + pose proof (Hslots x cx k _ Hx (or_intror Hk)). lia.
Qed.

Lemma chans_allocated_pair_world : chans_allocated pair_world.
Proof.
  do 2 apply chans_allocated_new_aut. intros a c d ch Ha. by destruct a.
Qed.

Lemma two_sided_wiring_witness :
  exists ca cb,
    auts (default empty_world (AddNeighbor NeighborLf 1 0 once_wired))
      !! 0%nat = Some ca /\
    auts (default empty_world (AddNeighbor NeighborLf 1 0 once_wired))
      !! 1%nat = Some cb /\
    map_read (toNeighbors ca) NeighborRt = Some 2%nat /\
    map_read (fromNeighbors cb) (Recip NeighborRt) = Some 2%nat /\
    map_read (toNeighbors cb) (Recip NeighborRt) = Some 3%nat /\
    map_read (fromNeighbors ca) NeighborRt = Some 3%nat /\
    orphaned (default empty_world (AddNeighbor NeighborLf 1 0 once_wired)) 0 /\
    orphaned (default empty_world (AddNeighbor NeighborLf 1 0 once_wired)) 1.
Proof.
  apply (two_sided_wiring NeighborRt 0 1 pair_world once_wired).
  - unfold is_uint8, NeighborRt. lia.
  - discriminate.
  - exact chans_allocated_pair_world.
  - vm_compute. reflexivity.
  - vm_compute. reflexivity.
Defined.

(** X5: the four directions the select of Start watches are closed under
    Recip, so a neighbour wired under one of the four constants is heard on
    both sides. *)
Theorem watched_directions_closed_under_Recip (d : Z) :
  is_uint8 d -> (d ∈ select_dirs <-> Recip d ∈ select_dirs).
Proof.
  intros Hd. unfold select_dirs.
  rewrite !elem_of_cons, !elem_of_nil, (Recip_uint8 d Hd).
  unfold NeighborUp, NeighborRt, NeighborDn, NeighborLf, is_uint8 in *. lia.
Qed.

Lemma watched_directions_closed_under_Recip_witness :
  NeighborUp ∈ select_dirs <-> Recip NeighborUp ∈ select_dirs.
Proof.
  apply (watched_directions_closed_under_Recip NeighborUp).
  unfold is_uint8, NeighborUp. lia.
Defined.

(** ** Panics *)

Lemma done_closed_wg_add (delta : Z) (s : Sys) :
  done_closed (wg_add delta s) = done_closed s.
Proof. unfold wg_add. by case_decide. Qed.

Lemma step_done_closed (a : Action) (s s' : Sys) :
  step a s = Some s' ->
  done_closed s' = if decide (a = MCloseDone) then true else done_closed s.
Proof.
  intros Hstep.
  destruct a; step_cases Hstep; simpl; rewrite ?done_closed_wg_add; done.
Qed.

(** In a system whose counter is balanced, a step panics only by closing
    the closed done channel: the WaitGroup counter is never driven below
    zero. *)
Lemma step_panic_inv (a : Action) (s s' : Sys) :
  balanced s -> step a s = Some s' -> crashed s' = true ->
  a = MCloseDone /\ done_closed s = true.
Proof.
  intros Hbal Hstep Hcr.
  assert (crashed s = false) as Hlive.
  { unfold step, guard in Hstep. destruct (crashed s); [discriminate | done]. }
  destruct (Hbal Hlive) as (Hwg & Hk & Hidle).
  pose proof (credits_nonneg s Hk) as Hnn.
  destruct a; step_cases Hstep; name_step_hyps.
  all: try (pose proof (credits_ge_owed s _ _ Hk Hp) as Hge;
            rewrite Hpc in Hge; simpl in Hge).
  all: try rewrite wg_add_ok in Hcr by lia.
  all: simpl in Hcr; try congruence.
  done.
Qed.

Lemma run_no_panic (sched : list Action) :
  forall s s',
    balanced s -> crashed s = false ->
    (closes sched + (if done_closed s then 1 else 0) <= 1)%nat ->
    run sched s = Some s' ->
    crashed s' = false.
Proof.
  induction sched as [|a sched IH]; intros s s' Hbal Hlive Hcl Hrun;
    simpl in Hrun.
  - by injection Hrun as <-.
  - destruct (step a s) as [s1|] eqn:Hstep; [| discriminate]. simpl in Hrun.
    pose proof (step_balanced a s s1 Hstep Hbal) as Hbal1.
    pose proof (step_done_closed a s s1 Hstep) as Hdc.
    unfold closes in Hcl. rewrite filter_cons in Hcl.
    destruct (decide (a = MCloseDone)) as [->|Hne].
    + simpl in Hcl. destruct (done_closed s) eqn:Hd; [lia |].
      apply (IH s1 s'); try done.
      * destruct (crashed s1) eqn:Hc1; [| done].
        destruct (step_panic_inv _ _ _ Hbal Hstep Hc1) as [_ ?]. congruence.
      * rewrite Hdc. unfold closes. lia.
    + apply (IH s1 s'); try done.
      * destruct (crashed s1) eqn:Hc1; [| done].
        by destruct (step_panic_inv _ _ _ Hbal Hstep Hc1) as [? _].
      * rewrite Hdc. by unfold closes.
Qed.

(** X6: a run from a wired world in which close(done) is called at most
    once never panics; the WaitGroup counter stays non-negative and equals
    the outstanding credits. *)
Theorem no_panic_without_double_close (ops : list WireOp) (w : World)
    (sched : list Action) (s : Sys) :
  wire ops empty_world = Some w ->
  run sched (launch w) = Some s ->
  (closes sched <= 1)%nat ->
  crashed s = false /\
  0 <= waitGroup (ticker s) /\ waitGroup (ticker s) = credits s.
Proof.
  intros Hw Hrun Hcl.
  assert (balanced (launch w)) as Hb0.
  { apply launch_balanced. by rewrite (wire_in_flight ops empty_world w Hw). }
  destruct (start_all_spec (seq 0 (length (auts w)))
              (mkSys w (mkTicker 0 [] 0) TIdle [] false false))
    as (_ & _ & Hc0 & Hd0 & _).
  fold (launch w) in Hc0, Hd0. simpl in Hc0, Hd0.
  assert (crashed s = false) as Hlive.
  { apply (run_no_panic sched (launch w) s Hb0 Hc0); [| done].
    rewrite Hd0. lia. }
  split; [done |].
  destruct (run_balanced sched (launch w) s Hrun Hb0 Hlive) as (Hwg & Hk & _).
  split; [| done]. rewrite Hwg. by apply credits_nonneg.
Qed.

Lemma no_panic_without_double_close_witness :
  crashed (default (launch empty_world)
                   (run tick1_raced (launch linear_wired))) = false /\
  0 <= waitGroup (ticker (default (launch empty_world)
                            (run tick1_raced (launch linear_wired)))) /\
  waitGroup (ticker (default (launch empty_world)
                       (run tick1_raced (launch linear_wired))))
  = credits (default (launch empty_world)
               (run tick1_raced (launch linear_wired))).
Proof.
  apply (no_panic_without_double_close linear_script linear_wired tick1_raced).
  - vm_compute. reflexivity.
  - vm_compute. reflexivity.
  - vm_compute. lia.
Defined.

(** ** Between ticks *)

Lemma balanced_zero_settled (s : Sys) :
  balanced s -> crashed s = false -> waitGroup (ticker s) = 0 -> settled s.
Proof.
  intros Hbal Hlive Hz.
  destruct (Hbal Hlive) as (Hwg & Hk & _).
  unfold credits in Hwg. rewrite Hz in Hwg.
  pose proof (owed_nonneg (procs s)).
  pose proof (in_flight_nonneg (chans (world s))).
  assert (0 <= undispatched (ticker s) (tpc s)).
  { destruct (tpc s) as [|k|] eqn:E; simpl; try lia.
    specialize (Hk k eq_refl). lia. }
  split.
  - intros p pr Hp.
    pose proof (owed_zero (procs s) p pr ltac:(lia) Hp) as Hc.
    destruct (p_pc pr) as [| |? [?|]| |]; simpl in Hc; auto; lia.
  - intros ch q Hq. apply (in_flight_zero (chans (world s)) ch); [lia | done].
Qed.

(** X7: whenever the ticker is outside [Tick] (before the first call and
    after every return), every goroutine sits in its select or has
    returned and no channel holds a message; the only thing a goroutine
    can still do is return on the closed done channel, so no committed or
    pending state changes until the next SetState or Tick. *)
Theorem between_ticks_nothing_moves (ops : list WireOp) (w : World)
    (sched : list Action) (s : Sys) :
  wire ops empty_world = Some w ->
  run sched (launch w) = Some s ->
  crashed s = false ->
  tpc s = TIdle ->
  settled s /\
  forall a p s',
    actor a = Some p -> step a s = Some s' ->
    a = PDone p /\ done_closed s = true /\ world s' = world s.
Proof.
  intros Hw Hrun Hlive Hidle.
  assert (balanced s) as Hbal
    by (apply reachable_balanced; by exists ops, w, sched).
  destruct (Hbal Hlive) as (_ & _ & Hz). specialize (Hz Hidle).
  pose proof (balanced_zero_settled s Hbal Hlive Hz) as [Hpcs Hchs].
  split; [by split |].
  intros a p s' Hact Hstep.
  destruct a; simpl in Hact; try discriminate; injection Hact as ->;
    step_cases Hstep; name_step_hyps;
    try (destruct (Hpcs _ _ Hp) as [E|E]; congruence).
  - specialize (Hchs _ _ Hq). discriminate.
  - done.
Qed.

Lemma between_ticks_nothing_moves_witness :
  settled (default (launch empty_world)
                   (run tick1_raced (launch linear_wired))) /\
  forall a p s',
    actor a = Some p ->
    step a (default (launch empty_world)
                    (run tick1_raced (launch linear_wired))) = Some s' ->
    a = PDone p /\
    done_closed (default (launch empty_world)
                         (run tick1_raced (launch linear_wired))) = true /\
    world s' = world (default (launch empty_world)
                              (run tick1_raced (launch linear_wired))).
Proof.
  apply (between_ticks_nothing_moves linear_script linear_wired tick1_raced).
  - vm_compute. reflexivity.
  - vm_compute. reflexivity.
  - vm_compute. reflexivity.
  - vm_compute. reflexivity.
Defined.

(** ** Steady state *)

Lemma rest_pcs_alter (l : list Proc) (p : nat) (pc : PC) :
  rest_pc pc = true ->
  Forall (fun pr => rest_pc (p_pc pr) = true) l ->
  Forall (fun pr => rest_pc (p_pc pr) = true)
         (alter (fun pr => mkProc (p_aut pr) (p_tick pr) pc) p l).
Proof.
  intros Hpc Hl. apply Forall_lookup. intros q pr Hq.
  destruct (decide (p = q)) as [->|Hne].
  - rewrite list_lookup_alter_eq in Hq.
    destruct (l !! q); simpl in Hq; simplify_eq. simpl. exact Hpc.
  - rewrite list_lookup_alter_ne in Hq by done.
    by apply (Forall_lookup_1 _ _ _ _ Hl Hq).
Qed.

Lemma step_at_rest (a : Action) (s s' : Sys) :
  at_rest s -> sets_state a = false -> step a s = Some s' ->
  world s' = world s /\ at_rest s'.
Proof.
  intros (Hauts & Hchs & Hpcs) Hns Hstep.
  destruct a; try discriminate; step_cases Hstep; name_step_hyps.
  all: try (pose proof (Forall_lookup_1 _ _ _ _ Hpcs Hp) as Hrp;
            simpl in Hrp; rewrite Hpc in Hrp; simpl in Hrp;
            try discriminate).
  all: try match goal with
           | H : auts _ !! _ = Some ?c, E : newState ?c <> state ?c |- _ =>
               exfalso; apply E; apply (Forall_lookup_1 _ _ _ _ Hauts H)
           end.
  all: try match goal with
           | H : chans _ !! _ = Some (_ :: _) |- _ =>
               pose proof (Forall_lookup_1 _ _ _ _ Hchs H); discriminate
           end.
  all: try match goal with
           | H : _ ∈ ?pending |- _ =>
               apply bool_decide_eq_true_1 in Hrp; subst;
               by apply not_elem_of_empty in H
           end.
  all: split; [simpl; rewrite ?world_wg_add; done |].
  all: split; [simpl; rewrite ?world_wg_add; done |].
  all: split; [simpl; rewrite ?world_wg_add; done |].
  all: simpl; rewrite ?procs_wg_add; try done;
    by apply rest_pcs_alter.
Qed.

(** X8: once every automaton's pending state equals its committed state
    and nothing is in flight, ticks change nothing: whatever the schedule,
    as long as the test body calls no SetState, no committed state, no
    pending state and no channel ever changes again. *)
Theorem steady_state_is_stable (sched : list Action) (s s' : Sys) :
  at_rest s ->
  Forall (fun a => sets_state a = false) sched ->
  run sched s = Some s' ->
  world s' = world s /\ at_rest s' /\
  forall a, GetState a (world s') = GetState a (world s).
Proof.
  revert s. induction sched as [|a sched IH]; intros s Hrest Hns Hrun;
    simpl in Hrun.
  - injection Hrun as <-. done.
  - destruct (step a s) as [s1|] eqn:Hstep; [| discriminate]. simpl in Hrun.
    apply Forall_cons in Hns as [Ha Hns].
    destruct (step_at_rest a s s1 Hrest Ha Hstep) as [Hw1 Hr1].
    destruct (IH s1 Hr1 Hns Hrun) as (Hw & Hr & _).
    rewrite Hw, Hw1. done.
Qed.

Lemma steady_state_is_stable_witness :
  world (default (launch empty_world)
                 (run (mjoin (replicate 10 tick_steady)) linear_gooed))
    = world linear_gooed /\
  at_rest (default (launch empty_world)
                   (run (mjoin (replicate 10 tick_steady)) linear_gooed)) /\
  forall a,
    GetState a (world (default (launch empty_world)
                  (run (mjoin (replicate 10 tick_steady)) linear_gooed)))
    = GetState a (world linear_gooed).
Proof.
  apply (steady_state_is_stable (mjoin (replicate 10 tick_steady))
                                linear_gooed).
  - apply (bool_decide_unpack _). vm_compute. exact I.
  - apply (bool_decide_unpack _). vm_compute. exact I.
  - vm_compute. reflexivity.
Defined.

(** ** The order of the hand-offs *)

Lemma start_all_layout (autl : list nat) :
  forall s,
    destinations (ticker (start_all autl s))
      = destinations (ticker s)
          ++ seq (length (destinations (ticker s))) (length autl) /\
    procs (start_all autl s)
      = procs s
          ++ imap (fun j a =>
                     mkProc a (length (destinations (ticker s)) + j) AtSelect)
                  autl.
Proof.
  induction autl as [|a autl IH]; intros s.
  - simpl. by rewrite !app_nil_r.
  - rewrite start_all_cons.
    destruct (IH (go_Start a (length (destinations (ticker s)))
                    (with_ticker s (snd (TickChan (ticker s))))))
      as [Hd Hp].
    rewrite Hd, Hp. simpl. rewrite length_app. simpl.
    rewrite <- !app_assoc. simpl. split.
    + do 2 f_equal. f_equal. lia.
    + do 2 f_equal; [f_equal; lia |].
      apply imap_ext. intros j x _. simpl. f_equal. lia.
Qed.

Lemma launch_lined_up (w : World) : lined_up (launch w).
Proof.
  unfold launch.
  destruct (start_all_layout (seq 0 (length (auts w)))
              (mkSys w (mkTicker 0 [] 0) TIdle [] false false)) as [Hd Hp].
  simpl in Hd, Hp. split.
  - rewrite Hd, Hp. by rewrite length_imap.
  - intros p pr Hpr. rewrite Hp in Hpr.
    rewrite list_lookup_imap in Hpr.
    destruct (seq 0 (length (auts w)) !! p) as [x|] eqn:Hx; [| done].
    simpl in Hpr. injection Hpr as <-. simpl.
    apply lookup_seq in Hx as [-> _]. done.
Qed.

Lemma p_aut_alter (l : list Proc) (p q : nat) (pc : PC) :
  p_aut <$> alter (fun pr => mkProc (p_aut pr) (p_tick pr) pc) p l !! q
  = p_aut <$> l !! q.
Proof.
  destruct (decide (p = q)) as [->|Hne].
  - rewrite list_lookup_alter_eq. by destruct (l !! q).
  - by rewrite list_lookup_alter_ne.
Qed.

Lemma step_procs_frame (a : Action) (s s' : Sys) :
  step a s = Some s' ->
  length (procs s') = length (procs s) /\
  forall q, p_aut <$> procs s' !! q = p_aut <$> procs s !! q.
Proof.
  intros Hstep.
  destruct a; step_cases Hstep; simpl;
    rewrite ?procs_wg_add, ?length_alter; (split; [done |]); intros q;
    rewrite ?p_aut_alter; done.
Qed.

Lemma step_lined_up (a : Action) (s s' : Sys) :
  step a s = Some s' -> lined_up s -> lined_up s'.
Proof.
  intros Hstep [Hd Hp].
  destruct (step_frame a s s' Hstep) as [Hds Hticks].
  destruct (step_procs_frame a s s' Hstep) as [Hlen Hauts].
  split; [by rewrite Hds, Hlen |].
  intros p pr Hpr.
  specialize (Hticks p). specialize (Hauts p). rewrite Hpr in Hticks, Hauts.
  destruct (procs s !! p) as [pr0|] eqn:Hp0; [| done].
  simpl in Hticks, Hauts. destruct (Hp p pr0 Hp0) as [Ht Ha].
  split; congruence.
Qed.

Lemma run_lined_up (sched : list Action) (s s' : Sys) :
  run sched s = Some s' -> lined_up s -> lined_up s'.
Proof.
  revert s. induction sched as [|a sched IH]; intros s Hrun Hl; simpl in Hrun.
  - by injection Hrun as <-.
  - destruct (step a s) as [s1|] eqn:Hstep; [| discriminate]. simpl in Hrun.
    eapply IH; [done |]. by eapply step_lined_up.
Qed.

(** X9: [Tick] serves the goroutines in the order they were started: while
    the ticker stands at destination [k], the only thing its owner can do
    is hand the tick signal to goroutine [k], which runs automaton [k] and
    sits in its select; and up to the wait the owner performs exactly the
    hand-offs to goroutines [k], [k+1], ... up to the last, each once. *)
Theorem Tick_serves_in_start_order (ops : list WireOp) (w : World)
    (sched : list Action) (s : Sys) (k : nat) :
  wire ops empty_world = Some w ->
  run sched (launch w) = Some s ->
  crashed s = false ->
  tpc s = TDispatch k ->
  (forall a s', actor a = None -> step a s = Some s' ->
     a = TSend k /\
     exists pr, procs s !! k = Some pr /\ p_aut pr = k /\
                p_pc pr = AtSelect /\ pc_of s' k = Some GotTick) /\
  (forall rest s',
     TWake ∉ rest -> run rest s = Some s' -> tpc s' = TWait ->
     owner_actions rest = TSend <$> seq k (length (auts w) - k)).
Proof.
  intros Hw Hrun Hlive Htpc.
  assert (balanced s) as Hbal
    by (apply reachable_balanced; by exists ops, w, sched).
  destruct (Hbal Hlive) as (_ & Hk & _). specialize (Hk k Htpc).
  destruct (run_lined_up sched (launch w) s Hrun (launch_lined_up w))
    as [Hd Hp].
  assert (length (procs s) = length (auts w)) as Hn.
  { pose proof (f_equal length Hd) as Hl. rewrite length_seq in Hl.
    rewrite <- Hl, (run_frame sched (launch w) s Hrun).
    destruct (start_all_spec (seq 0 (length (auts w)))
                (mkSys w (mkTicker 0 [] 0) TIdle [] false false))
      as (_ & _ & _ & _ & _ & _ & _ & Hlen0 & _).
    fold (launch w) in Hlen0. simpl in Hlen0.
    by rewrite length_seq in Hlen0. }
  split.
  - intros a s' Hact Hstep.
    destruct (owner_step_dispatch a s s' k Htpc Hact Hstep)
      as (p & pr & -> & Hpr & Hdest & Hpc & ->).
    destruct (Hp p pr Hpr) as [Ht Ha].
    rewrite Hd in Hdest. apply lookup_seq in Hdest as [Hdest _].
    simpl in Hdest. assert (p = k) as -> by congruence.
    split; [done |]. exists pr. repeat split; try done.
    unfold pc_of. simpl. by rewrite list_lookup_alter_eq, Hpr.
  - intros rest s' Hnw Hrest Hend.
    destruct (dispatch_trace rest s s' k Htpc Hk Hnw Hrest Hend)
      as (ps & -> & Hlen & Hall).
    f_equal. rewrite Hd, length_seq, Hn in Hlen.
    apply list_eq. intros j.
    destruct (decide (j < length (auts w) - k)%nat) as [Hj|Hj].
    + rewrite lookup_seq_lt by done.
      destruct (ps !! j) as [p|] eqn:Hpj.
      * destruct (Hall j p Hpj) as (dest & Hdj & Htj).
        rewrite Hd in Hdj. apply lookup_seq in Hdj as [Hdj _].
        simpl in Hdj.
        destruct (procs s !! p) as [pr|] eqn:Hpr; [| done].
        simpl in Htj. destruct (Hp p pr Hpr) as [Ht _].
        f_equal. congruence.
      * apply lookup_ge_None in Hpj. lia.
    + rewrite lookup_seq_ge by lia. apply lookup_ge_None. lia.
Qed.

Lemma Tick_serves_in_start_order_witness :
  (forall a s', actor a = None -> step a linear_mid_dispatch = Some s' ->
     a = TSend 2 /\
     exists pr, procs linear_mid_dispatch !! 2%nat = Some pr /\
                p_aut pr = 2%nat /\
                p_pc pr = AtSelect /\ pc_of s' 2 = Some GotTick) /\
  (forall rest s',
     TWake ∉ rest -> run rest linear_mid_dispatch = Some s' ->
     tpc s' = TWait ->
     owner_actions rest = TSend <$> seq 2 (length (auts linear_wired) - 2)).
Proof.
  apply (Tick_serves_in_start_order linear_script linear_wired
           ([MTick] ++ dispatch 2) linear_mid_dispatch 2).
  - vm_compute. reflexivity.
  - vm_compute. reflexivity.
  - vm_compute. reflexivity.
  - vm_compute. reflexivity.
Defined.

(** X10: with no automaton started the ticker has no destination, and
    [Tick] does not block: it returns at once with the identifier advanced
    and nothing else changed. *)
Theorem Tick_without_destinations (ops : list WireOp) (w : World)
    (sched : list Action) (s : Sys) :
  wire ops empty_world = Some w ->
  run sched (launch w) = Some s ->
  crashed s = false -> tpc s = TIdle ->
  auts w = [] ->
  exists s',
    run [MTick; TWake] s = Some s' /\
    tpc s' = TIdle /\ crashed s' = false /\
    tickID (ticker s') = int64 (tickID (ticker s) + 1) /\
    waitGroup (ticker s') = 0 /\
    world s' = world s /\ procs s' = procs s.
Proof.
  intros Hw Hrun Hlive Hidle Hnone.
  assert (balanced s) as Hbal
    by (apply reachable_balanced; by exists ops, w, sched).
  destruct (Hbal Hlive) as (_ & _ & Hz). specialize (Hz Hidle).
  assert (destinations (ticker s) = []) as Hd.
  { rewrite (run_frame sched (launch w) s Hrun).
    destruct (start_all_spec (seq 0 (length (auts w)))
                (mkSys w (mkTicker 0 [] 0) TIdle [] false false))
      as (_ & _ & _ & _ & _ & _ & _ & Hlen0 & _).
    fold (launch w) in Hlen0. simpl in Hlen0.
    rewrite length_seq, Hnone in Hlen0. simpl in Hlen0.
    by apply length_zero_iff_nil. }
  assert (step MTick s
          = Some (with_tpc
                    (with_ticker s (mkTicker (tickID (ticker s))
                                             (destinations (ticker s)) 0))
                    TWait)) as H1.
  { unfold step. rewrite Hlive, Hidle. simpl.
    rewrite wg_add_ok by lia. unfold after_dispatch. rewrite Hd. simpl.
    by rewrite Hz. }
  cbn [run]. rewrite H1. simpl.
  unfold step. simpl. rewrite Hlive. simpl.
  eexists. split; [reflexivity |]. simpl. by repeat split.
Qed.

Lemma Tick_without_destinations_witness :
  exists s',
    run [MTick; TWake] (launch empty_world) = Some s' /\
    tpc s' = TIdle /\ crashed s' = false /\
    tickID (ticker s') = int64 (tickID (ticker (launch empty_world)) + 1) /\
    waitGroup (ticker s') = 0 /\
    world s' = world (launch empty_world) /\
    procs s' = procs (launch empty_world).
Proof.
  apply (Tick_without_destinations [] empty_world [] (launch empty_world));
    reflexivity.
Defined.

(** ** Messages nobody takes *)

Lemma in_flight_ge (l : list (list State)) (ch : nat) (q : list State) :
  l !! ch = Some q -> Z.of_nat (length q) <= in_flight l.
Proof.
  revert ch. induction l as [|x l IH]; intros ch Hch; [done |].
  simpl. pose proof (in_flight_nonneg l).
  destruct ch as [|ch]; simpl in Hch.
  - injection Hch as ->. lia.
  - specialize (IH ch Hch). lia.
Qed.

(** No step writes a link table. *)
Lemma step_maps_frame (a : Action) (s s' : Sys) (x : nat) :
  step a s = Some s' ->
  fromNeighbors <$> auts (world s') !! x
    = fromNeighbors <$> auts (world s) !! x /\
  toNeighbors <$> auts (world s') !! x = toNeighbors <$> auts (world s) !! x.
Proof.
  intros Hstep.
  assert (forall (l : list GooCellAut) i c c',
            l !! i = Some c ->
            fromNeighbors c' = fromNeighbors c ->
            toNeighbors c' = toNeighbors c ->
            fromNeighbors <$> <[i:=c']> l !! x = fromNeighbors <$> l !! x /\
            toNeighbors <$> <[i:=c']> l !! x = toNeighbors <$> l !! x)
    as Hins.
  { intros l i c c' Hc Hf Ht. destruct (decide (i = x)) as [->|Hne].
    - rewrite list_lookup_insert_eq by (by eapply lookup_lt_Some).
      rewrite Hc. simpl. by rewrite Hf, Ht.
    - by rewrite list_lookup_insert_ne. }
  destruct a; step_cases Hstep; simpl; rewrite ?world_wg_add; try done.
  - unfold SetState in *. simplify_option_eq. simpl.
    by eapply Hins.
  - by eapply Hins.
  - by eapply Hins.
Qed.

Lemma step_unwatched (a : Action) (s s' : Sys) (ch : nat) :
  step a s = Some s' -> unwatched (world s) ch -> unwatched (world s') ch.
Proof.
  intros Hstep Hun. apply Forall_lookup. intros x c' Hx.
  destruct (step_maps_frame a s s' x Hstep) as [Hf _].
  rewrite Hx in Hf. simpl in Hf.
  destruct (auts (world s) !! x) as [c|] eqn:Hc; [| done].
  simpl in Hf. injection Hf as Hf. rewrite Hf.
  by apply (Forall_lookup_1 _ _ _ _ Hun Hc).
Qed.

Lemma step_stuck_message (a : Action) (s s' : Sys) (ch : nat)
    (v : State) (q : list State) :
  balanced s -> tpc s <> TIdle -> unwatched (world s) ch ->
  chans (world s) !! ch = Some (v :: q) ->
  step a s = Some s' ->
  tpc s' <> TIdle /\ chans (world s') !! ch = Some (v :: q) /\
  tickID (ticker s') = tickID (ticker s).
Proof.
  intros Hbal Hbusy Hun Hch Hstep.
  assert (crashed s = false) as Hlive.
  { unfold step, guard in Hstep. destruct (crashed s); [discriminate | done]. }
  destruct (Hbal Hlive) as (Hwg & Hk & _).
  pose proof (in_flight_ge _ _ _ Hch) as Hge. simpl in Hge.
  pose proof (owed_nonneg (procs s)) as Hown.
  destruct a; step_cases Hstep;
    try (destruct (tpc s); simpl in *; congruence).
  - (* TSend *)
    split; [simpl; apply after_dispatch_not_idle |]. by split.
  - (* TWake *)
    exfalso. unfold credits in Hwg.
    match goal with H : tpc s = TWait |- _ => rewrite H in Hwg end.
    simpl in Hwg. lia.
  - by repeat split.
  - by repeat split.
  - simpl. rewrite tpc_wg_add, world_wg_add, tickID_wg_add. by repeat split.
  - (* PPut *)
    simpl. split; [done |]. split; [| done].
    rewrite list_lookup_insert_ne; [done |].
    intros ->. simplify_eq. simpl in *. lia.
  - simpl. rewrite tpc_wg_add, world_wg_add, tickID_wg_add. by repeat split.
  - (* PRecv *)
    simpl. split; [done |]. split; [| done].
    rewrite list_lookup_insert_ne; [done |].
    intros ->.
    match goal with
    | Hc : auts _ !! _ = Some ?c, Hd : _ ∈ select_dirs,
      Hm : map_read (fromNeighbors ?c) _ = Some _ |- _ =>
        pose proof (Forall_lookup_1 _ _ _ _ Hun Hc) as Hw;
        rewrite Forall_forall in Hw; by apply (Hw _ Hd)
    end.
  - simpl. rewrite tpc_wg_add, world_wg_add, tickID_wg_add. by repeat split.
  - by repeat split.
Qed.

(** X11: a state sent on a channel that no automaton has in one of the four
    receive slots of its select is never taken: while it sits there [Tick]
    cannot return, whatever the goroutines do.  This is what happens to a
    neighbour wired under a direction other than the four constants, and
    to a link left behind by wiring a slot again. *)
Theorem unwatched_message_blocks_Tick (ops : list WireOp) (w : World)
    (sched rest : list Action) (s s' : Sys) (ch : nat) (v : State)
    (q : list State) :
  wire ops empty_world = Some w ->
  run sched (launch w) = Some s ->
  tpc s <> TIdle ->
  unwatched (world s) ch ->
  chans (world s) !! ch = Some (v :: q) ->
  run rest s = Some s' ->
  tpc s' <> TIdle /\ chans (world s') !! ch = Some (v :: q) /\
  tickID (ticker s') = tickID (ticker s).
Proof.
  intros Hw Hrun Hbusy Hun Hch Hrest.
  assert (balanced s) as Hbal
    by (apply reachable_balanced; by exists ops, w, sched).
  clear Hw Hrun. revert s Hbal Hbusy Hun Hch Hrest.
  induction rest as [|a rest IH]; intros s Hbal Hbusy Hun Hch Hrest;
    simpl in Hrest.
  - by injection Hrest as <-.
  - destruct (step a s) as [s1|] eqn:Hstep; [| discriminate].
    simpl in Hrest.
    destruct (step_stuck_message a s s1 ch v q Hbal Hbusy Hun Hch Hstep)
      as (Hb1 & Hch1 & Hid1).
    destruct (IH s1) as (Hb' & Hch' & Hid'); try done.
    + by eapply step_balanced.
    + by eapply step_unwatched.
    + repeat split; try done. congruence.
Qed.

Lemma unwatched_message_blocks_Tick_witness :
  tpc (default odd_sys (run (quiet 1) odd_sys)) <> TIdle /\
  chans (world (default odd_sys (run (quiet 1) odd_sys))) !! 1%nat
    = Some ["X"] /\
  tickID (ticker (default odd_sys (run (quiet 1) odd_sys)))
    = tickID (ticker odd_sys).
Proof.
  apply (unwatched_message_blocks_Tick odd_script odd_wired odd_schedule
           (quiet 1) odd_sys (default odd_sys (run (quiet 1) odd_sys))
           1 "X" []).
  - vm_compute. reflexivity.
  - vm_compute. reflexivity.
  - vm_compute. discriminate.
  - apply (bool_decide_unpack _). vm_compute. exact I.
  - vm_compute. reflexivity.
  - vm_compute. reflexivity.
Defined.

(** ** Where states come from *)

Section Provenance.
Variable P : State -> Prop.
Hypothesis Pempty : P "".

Lemma wire_op_states_in (op : WireOp) (w w' : World) :
  Forall P (op_values op) -> wire_op op w = Some w' ->
  states_in P w -> states_in P w'.
Proof.
  intros Hv Hop [Hauts Hchs].
  destruct op as [i|d a b|a v]; simpl in Hop.
  - injection Hop as <-. split; [| done]. simpl.
    apply Forall_app. split; [done |]. by repeat constructor.
  - pose proof (rewired_of_AddNeighbor d a b w w' Hop) as Hr.
    split.
    + apply Forall_lookup. intros x c' Hx.
      destruct (rewired_states d a b w w' Hr x) as [Hs Hn].
      rewrite Hx in Hs, Hn. simpl in Hs, Hn.
      destruct (auts w !! x) as [c|] eqn:Hc; [| done].
      simpl in Hs, Hn. injection Hs as Hs. injection Hn as Hn.
      rewrite Hs, Hn. by apply (Forall_lookup_1 _ _ _ _ Hauts Hc).
    + destruct Hr as [-> _]. apply Forall_app. split; [done |].
      by repeat constructor.
  - unfold SetState in Hop.
    destruct (auts w !! a) as [c|] eqn:Hc; [| discriminate].
    simpl in Hop. injection Hop as <-. split; [| done]. simpl.
    apply Forall_insert; [done |]. simpl.
    apply Forall_cons in Hv as [Hv _].
    split; [| done]. by apply (Forall_lookup_1 _ _ _ _ Hauts Hc).
Qed.

Lemma wire_states_in (ops : list WireOp) (w w' : World) :
  Forall P (flat_map op_values ops) -> wire ops w = Some w' ->
  states_in P w -> states_in P w'.
Proof.
  revert w. induction ops as [|op ops IH]; intros w Hv H Hw; simpl in H.
  - by injection H as <-.
  - destruct (wire_op op w) as [w1|] eqn:Hop; [| discriminate]. simpl in H.
    simpl in Hv. apply Forall_app in Hv as [Hv1 Hv2].
    apply (IH w1 Hv2 H). by eapply wire_op_states_in.
Qed.

Lemma step_states_in (a : Action) (s s' : Sys) :
  Forall P (action_values a) -> step a s = Some s' ->
  states_in P (world s) -> states_in P (world s').
Proof.
  intros Hv Hstep [Hauts Hchs].
  destruct a; step_cases Hstep; simpl; rewrite ?world_wg_add; try done.
  - (* SetState *)
    unfold SetState in *. simplify_option_eq. split; [| done]. simpl.
    apply Forall_insert; [done |]. simpl.
    apply Forall_cons in Hv as [Hv _].
    match goal with
    | H : auts _ !! _ = Some _ |- _ =>
        pose proof (Forall_lookup_1 _ _ _ _ Hauts H) as [? ?]
    end.
    by split.
  - (* commit *)
    split; [| done]. simpl. apply Forall_insert; [done |]. simpl.
    match goal with
    | H : auts _ !! _ = Some _ |- _ =>
        pose proof (Forall_lookup_1 _ _ _ _ Hauts H) as [? ?]
    end.
    by split.
  - (* send *)
    split; [done |]. simpl. apply Forall_insert; [done |].
    apply Forall_app. split.
    + match goal with
      | H : chans _ !! _ = Some _ |- _ =>
          apply (Forall_lookup_1 _ _ _ _ Hchs H)
      end.
    + constructor; [| done].
      match goal with
      | H : auts _ !! _ = Some _ |- _ =>
          by pose proof (Forall_lookup_1 _ _ _ _ Hauts H) as [? ?]
      end.
  - (* receive *)
    match goal with
    | H : chans _ !! _ = Some (_ :: _) |- _ =>
        pose proof (Forall_lookup_1 _ _ _ _ Hchs H) as Hq;
        apply Forall_cons in Hq as [Hv0 Hq]
    end.
    split; simpl.
    + apply Forall_insert; [done |]. simpl.
      match goal with
      | H : auts _ !! _ = Some _ |- _ =>
          pose proof (Forall_lookup_1 _ _ _ _ Hauts H) as [? ?]
      end.
      by split.
    + by apply Forall_insert.
Qed.

Lemma run_states_in (sched : list Action) (s s' : Sys) :
  Forall P (flat_map action_values sched) -> run sched s = Some s' ->
  states_in P (world s) -> states_in P (world s').
Proof.
  revert s. induction sched as [|a sched IH]; intros s Hv Hrun Hs;
    simpl in Hrun.
  - by injection Hrun as <-.
  - destruct (step a s) as [s1|] eqn:Hstep; [| discriminate]. simpl in Hrun.
    simpl in Hv. apply Forall_app in Hv as [Hv1 Hv2].
    apply (IH s1 Hv2 Hrun). by eapply step_states_in.
Qed.

(** X12: the program invents no state: every committed state, every
    pending state and every message in a channel is the empty string or a
    value the test body passed to SetState, before or between the ticks. *)
Theorem states_come_from_SetState (ops : list WireOp) (w : World)
    (sched : list Action) (s : Sys) :
  Forall P (flat_map op_values ops) ->
  Forall P (flat_map action_values sched) ->
  wire ops empty_world = Some w ->
  run sched (launch w) = Some s ->
  states_in P (world s) /\
  forall a v, GetState a (world s) = Some v -> P v.
Proof.
  intros Hops Hsched Hw Hrun.
  assert (states_in P (world s)) as Hs.
  { apply (run_states_in sched (launch w) s Hsched Hrun).
    destruct (start_all_spec (seq 0 (length (auts w)))
                (mkSys w (mkTicker 0 [] 0) TIdle [] false false))
      as (Hw0 & _).
    fold (launch w) in Hw0. rewrite Hw0. simpl.
    apply (wire_states_in ops empty_world w Hops Hw).
    split; constructor. }
  split; [done |]. intros a v Hg. unfold GetState in Hg.
  destruct (auts (world s) !! a) as [c|] eqn:Hc; [| done].
  simpl in Hg. injection Hg as <-.
  by destruct (Forall_lookup_1 _ _ _ _ (proj1 Hs) Hc).
Qed.
End Provenance.

Lemma states_come_from_SetState_witness :
  states_in (fun v => v = "" \/ v = "X")
    (world (default (launch empty_world)
                    (run tick1_raced (launch linear_wired)))) /\
  forall a v,
    GetState a (world (default (launch empty_world)
                                (run tick1_raced (launch linear_wired))))
      = Some v ->
    v = "" \/ v = "X".
Proof.
  apply (states_come_from_SetState (fun v => v = "" \/ v = "X")
           (or_introl eq_refl) linear_script linear_wired tick1_raced).
  - simpl. constructor; [by right | constructor].
  - replace (flat_map action_values tick1_raced) with (@nil string)
      by (vm_compute; reflexivity).
    constructor.
  - vm_compute. reflexivity.
  - vm_compute. reflexivity.
Defined.

(** ** The string the test compares *)





(** ** One writer and one reader per channel *)

(** The slots of any automaton after AddNeighbor, in one formula. *)
Lemma rewired_slots (d : Z) (a b : nat) (w w' : World) (x : nat)
    (cx' : GooCellAut) :
  rewired d a b w w' -> auts w' !! x = Some cx' ->
  exists cx,
    auts w !! x = Some cx /\
    (forall k,
       map_read (toNeighbors cx') k =
         if decide (x = a /\ k = d) then Some (S (length (chans w)))
         else if decide (x = b /\ k = Recip d) then Some (length (chans w))
         else map_read (toNeighbors cx) k) /\
    (forall k,
       map_read (fromNeighbors cx') k =
         if decide (x = a /\ k = d) then Some (length (chans w))
         else if decide (x = b /\ k = Recip d)
              then Some (S (length (chans w)))
         else map_read (fromNeighbors cx) k).
Proof.
  intros (_ & _ & Hoth & ca & cb & ca' & cb' & Hca & Hcb & Hca' & Hcb'
          & Hat & Haf & Hbt & Hbf & _) Hx.
  destruct (decide (x = a)) as [->|Hxa].
  { exists ca. split; [done |]. assert (cx' = ca') as -> by congruence.
    split; intros k; [rewrite Hat | rewrite Haf];
      repeat case_decide; first [done | exfalso; intuition congruence]. }
  destruct (decide (x = b)) as [->|Hxb].
  { exists cb. split; [done |]. assert (cx' = cb') as -> by congruence.
    split; intros k; [rewrite Hbt | rewrite Hbf];
      repeat case_decide; first [done | exfalso; intuition congruence]. }
  exists cx'. split; [by rewrite <- Hoth |].
  split; intros k;
    repeat case_decide; first [done | exfalso; intuition congruence].
Qed.

Lemma single_ended_AddNeighbor (d : Z) (a b : nat) (w w' : World) :
  chans_allocated w -> AddNeighbor d a b w = Some w' ->
  single_ended w -> single_ended w'.
Proof.
  intros Hwf Hadd [Hto Hfrom].
  pose proof (rewired_of_AddNeighbor d a b w w' Hadd) as Hr.
  pose proof (Recip_neq d) as Hne.
  assert (forall z cz j c0, auts w !! z = Some cz ->
            map_read (toNeighbors cz) j = Some c0 ->
            (c0 < length (chans w))%nat) as Holdt
    by (intros z cz j c0 Hz Hj; by apply (Hwf z cz j c0 Hz (or_introl Hj))).
  assert (forall z cz j c0, auts w !! z = Some cz ->
            map_read (fromNeighbors cz) j = Some c0 ->
            (c0 < length (chans w))%nat) as Holdf
    by (intros z cz j c0 Hz Hj; by apply (Hwf z cz j c0 Hz (or_intror Hj))).
  split; intros x y cx' cy' k k' ch Hx Hy Hk Hk';
    destruct (rewired_slots d a b w w' x cx' Hr Hx) as (cx & Hcx & Hxt & Hxf);
    destruct (rewired_slots d a b w w' y cy' Hr Hy) as (cy & Hcy & Hyt & Hyf).
  - rewrite Hxt in Hk. rewrite Hyt in Hk'.
    pose proof (Holdt x cx k ch Hcx) as Hox.
    pose proof (Holdt y cy k' ch Hcy) as Hoy.
    repeat case_decide;
      first [ by apply (Hto x y cx cy k k' ch)
            | injection Hk as Hk; injection Hk' as Hk'; split;
              intuition (congruence || lia)
            | injection Hk as Hk; specialize (Hoy Hk'); exfalso; lia
            | injection Hk' as Hk'; specialize (Hox Hk); exfalso; lia ].
  - rewrite Hxf in Hk. rewrite Hyf in Hk'.
    pose proof (Holdf x cx k ch Hcx) as Hox.
    pose proof (Holdf y cy k' ch Hcy) as Hoy.
    repeat case_decide;
      first [ by apply (Hfrom x y cx cy k k' ch)
            | injection Hk as Hk; injection Hk' as Hk'; split;
              intuition (congruence || lia)
            | injection Hk as Hk; specialize (Hoy Hk'); exfalso; lia
            | injection Hk' as Hk'; specialize (Hox Hk); exfalso; lia ].
Qed.

Lemma single_ended_wire_op (op : WireOp) (w w' : World) :
  chans_allocated w -> wire_op op w = Some w' ->
  single_ended w -> single_ended w'.
Proof.
  intros Hwf Hop Hs.
  destruct op as [i|d a b|a v]; simpl in Hop.
  - injection Hop as <-. destruct Hs as [Hto Hfrom].
    assert (forall z (cz : GooCellAut),
              (auts w ++ [NewGooCellAut i]) !! z = Some cz ->
              auts w !! z = Some cz \/ cz = NewGooCellAut i) as Hcase.
    { intros z cz Hz. apply lookup_app_Some in Hz as [Hz|[_ Hz]]; [by left |].
      apply list_lookup_singleton_Some in Hz as [_ <-]. by right. }
    split; intros x y cx cy k k' ch Hx Hy Hk Hk'; simpl in Hx, Hy;
      destruct (Hcase x cx Hx) as [Hx0| ->];
      destruct (Hcase y cy Hy) as [Hy0| ->];
      try (simpl in Hk, Hk'; rewrite ?lookup_empty in Hk, Hk'; discriminate).
    + by apply (Hto x y cx cy k k' ch).
    + by apply (Hfrom x y cx cy k k' ch).
  - by apply (single_ended_AddNeighbor d a b w w').
  - unfold SetState in Hop.
    destruct (auts w !! a) as [c|] eqn:Hc; [| discriminate].
    simpl in Hop. injection Hop as <-. destruct Hs as [Hto Hfrom].
    assert (forall z (cz : GooCellAut),
              <[a:=set_newState c v]> (auts w) !! z = Some cz ->
              exists cz0, auts w !! z = Some cz0 /\
                toNeighbors cz = toNeighbors cz0 /\
                fromNeighbors cz = fromNeighbors cz0) as Hcase.
    { intros z cz Hz.
      apply list_lookup_insert_Some in Hz as [(-> & <- & _)|[_ Hz]];
        eauto. }
    split; intros x y cx cy k k' ch Hx Hy Hk Hk'; simpl in Hx, Hy;
      destruct (Hcase x cx Hx) as (cx0 & Hx0 & Hxt & Hxf);
      destruct (Hcase y cy Hy) as (cy0 & Hy0 & Hyt & Hyf).
    + rewrite Hxt in Hk. rewrite Hyt in Hk'.
      by apply (Hto x y cx0 cy0 k k' ch).
    + rewrite Hxf in Hk. rewrite Hyf in Hk'.
      by apply (Hfrom x y cx0 cy0 k k' ch).
Qed.

Lemma single_ended_wire (ops : list WireOp) (w w' : World) :
  well_wired w -> wire ops w = Some w' ->
  single_ended w -> single_ended w'.
Proof.
  revert w. induction ops as [|op ops IH]; intros w Hww H Hs; simpl in H.
  - by injection H as <-.
  - destruct (wire_op op w) as [w1|] eqn:Hop; [| discriminate]. simpl in H.
    apply (IH w1); [by eapply well_wired_wire_op | done |].
    eapply single_ended_wire_op; [apply Hww | done | done].
Qed.

(** X14: however the automata are wired and wired again, every channel has
    at most one sender and at most one receiver: it sits in at most one
    toNeighbors slot and in at most one fromNeighbors slot over all
    automata and directions. *)
Theorem wired_channels_single_ended (ops : list WireOp) (w : World) :
  wire ops empty_world = Some w -> single_ended w.
Proof.
  intros Hw.
  apply (single_ended_wire ops empty_world w well_wired_empty Hw).
  split; intros x y cx cy k k' ch Hx; by destruct x.
Qed.

Lemma wired_channels_single_ended_witness : single_ended linear_wired.
Proof.
  apply (wired_channels_single_ended linear_script linear_wired).
  vm_compute. reflexivity.
Defined.

(** ** A tick in a system at rest returns *)

Lemma dispatch_loop (n m : nat) :
  forall (s : Sys) (k : nat),
    (k + m = n)%nat ->
    crashed s = false -> lined_up s -> length (procs s) = n ->
    tpc s = after_dispatch (ticker s) k ->
    pcs_are s (fun p => if decide (p < k)%nat then GotTick else AtSelect) ->
    exists s',
      run (TSend <$> seq k m) s = Some s' /\
      world s' = world s /\ ticker s' = ticker s /\ crashed s' = false /\
      lined_up s' /\ length (procs s') = n /\
      tpc s' = TWait /\ pcs_are s' (fun _ => GotTick).
Proof.
  induction m as [|m IH]; intros s k Hkm Hlive Hl Hn Htpc Hpcs.
  - exists s. assert (k = n) as -> by lia. simpl.
    do 6 (split; [done |]). split.
    + rewrite Htpc. unfold after_dispatch.
      rewrite (proj1 Hl), length_seq, Hn.
      by rewrite decide_False by lia.
    + intros p pr Hp. rewrite (Hpcs p pr Hp). cbv beta.
      apply lookup_lt_Some in Hp. by rewrite decide_True by lia.
  - destruct Hl as [Hd Hp].
    destruct (lookup_lt_is_Some_2 (procs s) k ltac:(lia)) as [pr Hpr].
    destruct (Hp k pr Hpr) as [Ht Ha].
    pose proof (Hpcs k pr Hpr) as Hpc. cbv beta in Hpc.
    rewrite decide_False in Hpc by lia.
    assert (tpc s = TDispatch k) as Htd.
    { rewrite Htpc. unfold after_dispatch.
      rewrite Hd, length_seq, Hn. by rewrite decide_True by lia. }
    assert (step (TSend k) s
            = Some (with_tpc (with_pc s k GotTick)
                             (after_dispatch (ticker s) (S k)))) as Hstep.
    { unfold step. rewrite Hlive, Htd. simpl.
      rewrite Hd, lookup_seq_lt by lia. simpl. rewrite Hpr. simpl.
      rewrite bool_decide_eq_true_2 by done. simpl. by rewrite Hpc. }
    simpl. rewrite Hstep. simpl.
    destruct (IH (with_tpc (with_pc s k GotTick)
                           (after_dispatch (ticker s) (S k))) (S k))
      as (s' & Hrun & Hw & Htk & Hcr & Hl' & Hn' & Htp' & Hpcs');
      try done; try lia.
    + eapply step_lined_up; [exact Hstep | by split].
    + simpl. by rewrite length_alter.
    + intros p pr' Hp'. simpl in Hp'.
      destruct (decide (k = p)) as [->|Hne].
      * rewrite list_lookup_alter_eq, Hpr in Hp'. simpl in Hp'.
        injection Hp' as <-. simpl. by rewrite decide_True by lia.
      * rewrite list_lookup_alter_ne in Hp' by done.
        rewrite (Hpcs p pr' Hp'). cbv beta.
        destruct (decide (p < k)%nat); [by rewrite decide_True by lia |].
        by rewrite decide_False by lia.
    + exists s'. simpl in Hw, Htk.
      do 7 (split; [done |]). done.
Qed.

Lemma quiet_loop (n m : nat) :
  forall (s : Sys) (k : nat),
    (k + m = n)%nat ->
    crashed s = false -> lined_up s -> length (procs s) = n ->
    (n <= length (auts (world s)))%nat ->
    Forall (fun c => newState c = state c) (auts (world s)) ->
    waitGroup (ticker s) = Z.of_nat m ->
    pcs_are s (fun p => if decide (p < k)%nat then AtSelect else GotTick) ->
    exists s',
      run (flat_map quiet (seq k m)) s = Some s' /\
      world s' = world s /\ tpc s' = tpc s /\ crashed s' = false /\
      tickID (ticker s') = tickID (ticker s) /\
      destinations (ticker s') = destinations (ticker s) /\
      waitGroup (ticker s') = 0 /\
      lined_up s' /\ length (procs s') = n /\ pcs_are s' (fun _ => AtSelect).
Proof.
  induction m as [|m IH]; intros s k Hkm Hlive Hl Hn Hauts Hrest Hwg Hpcs.
  - exists s. assert (k = n) as -> by lia. simpl.
    do 6 (split; [done |]). split; [by rewrite Hwg |].
    do 2 (split; [done |]).
    intros p pr Hp. rewrite (Hpcs p pr Hp). cbv beta.
    apply lookup_lt_Some in Hp. by rewrite decide_True by lia.
  - destruct (lookup_lt_is_Some_2 (procs s) k ltac:(lia)) as [pr Hpr].
    destruct (proj2 Hl k pr Hpr) as [Ht Ha].
    pose proof (Hpcs k pr Hpr) as Hpc. cbv beta in Hpc.
    rewrite decide_False in Hpc by lia.
    destruct (lookup_lt_is_Some_2 (auts (world s)) (p_aut pr) ltac:(lia))
      as [c Hc].
    pose proof (Forall_lookup_1 _ _ _ _ Hrest Hc) as Heq.
    destruct (react_equal s k pr c Hlive Hpr Hpc Hc Heq ltac:(lia))
      as (s1 & Hrun1 & Hw1 & Hwg1 & Hid1 & Hd1 & Htp1 & Hcr1 & Hpc1 & Hoth1).
    pose proof (run_lined_up _ s s1 Hrun1 Hl) as Hl1.
    assert (length (procs s1) = n) as Hn1.
    { destruct Hl1 as [Hds1 _]. destruct Hl as [Hds _].
      pose proof (f_equal length Hds1) as E1.
      pose proof (f_equal length Hds) as E0.
      rewrite length_seq in E1, E0. rewrite <- E1, Hd1, E0. done. }
    destruct (IH s1 (S k)) as (s' & Hrun & Hw & Htp & Hcr & Hid & Hd & Hz
                               & Hl' & Hn' & Hpcs');
      try done; try lia.
    + by rewrite Hw1.
    + by rewrite Hw1.
    + intros p pr' Hp'.
      destruct (decide (p = k)) as [->|Hne].
      * unfold pc_of in Hpc1. rewrite Hp' in Hpc1. simpl in Hpc1.
        injection Hpc1 as ->. by rewrite decide_True by lia.
      * rewrite Hoth1 in Hp' by done. rewrite (Hpcs p pr' Hp'). cbv beta.
        destruct (decide (p < k)%nat); [by rewrite decide_True by lia |].
        by rewrite decide_False by lia.
    + exists s'. split.
      { change (flat_map quiet (seq k (S m)))
          with ([PReact k; PAllSent k] ++ flat_map quiet (seq (S k) m)).
        rewrite run_app, Hrun1. simpl. exact Hrun. }
      rewrite Hw, Htp, Hid, Hd, Hw1, Htp1, Hid1, Hd1.
      do 8 (split; [done |]). done.
Qed.

(** X15: in a system at rest a tick returns: the call, one hand-off and
    one reaction per goroutine and the return all go through, the counter
    goes from the number of goroutines back to zero, the tick identifier
    advances by one and the system is at rest again with every state as it
    was. *)
Theorem steady_tick_returns (s : Sys) :
  ready s ->
  exists s',
    run (steady_tick (length (procs s))) s = Some s' /\
    ready s' /\ world s' = world s /\
    tickID (ticker s') = int64 (tickID (ticker s) + 1).
Proof.
  intros (Hidle & Hlive & Hz & Hl & Hsel & Hrest & Hlen).
  set (n := length (procs s)).
  pose proof (f_equal length (proj1 Hl)) as Hdn. rewrite length_seq in Hdn.
  fold n in Hdn.
  assert (step MTick s
          = Some (with_tpc
                    (with_ticker s (mkTicker (tickID (ticker s))
                                             (destinations (ticker s))
                                             (Z.of_nat n)))
                    (after_dispatch (ticker s) 0))) as H1.
  { unfold step. rewrite Hlive, Hidle. simpl.
    rewrite wg_add_ok by lia. rewrite Hz, Hdn. simpl. reflexivity. }
  set (s1 := with_tpc _ _) in H1.
  assert (lined_up s1) as Hl1 by (eapply step_lined_up; [exact H1 | done]).
  assert (pcs_are s1 (fun p => if decide (p < 0)%nat then GotTick
                               else AtSelect)) as Hp1.
  { intros p pr Hp. simpl in Hp. simpl.
    apply (Forall_lookup_1 _ _ _ _ Hsel Hp). }
  destruct (dispatch_loop n n s1 0 eq_refl Hlive Hl1 eq_refl eq_refl Hp1)
    as (s2 & Hrun2 & Hw2 & Htk2 & Hcr2 & Hl2 & Hn2 & Htp2 & Hpcs2).
  assert (n <= length (auts (world s2)))%nat as Hlen2.
  { rewrite Hw2. simpl. exact Hlen. }
  assert (Forall (fun c => newState c = state c) (auts (world s2))) as Hrest2.
  { by rewrite Hw2. }
  assert (waitGroup (ticker s2) = Z.of_nat n) as Hwg2 by (by rewrite Htk2).
  assert (pcs_are s2 (fun p => if decide (p < 0)%nat then AtSelect
                               else GotTick)) as Hp2.
  { intros p pr Hp. simpl. by apply (Hpcs2 p pr). }
  destruct (quiet_loop n n s2 0 eq_refl Hcr2 Hl2 Hn2 Hlen2 Hrest2 Hwg2 Hp2)
    as (s3 & Hrun3 & Hw3 & Htp3 & Hcr3 & Hid3 & Hd3 & Hz3 & Hl3 & Hn3
        & Hpcs3).
  assert (step TWake s3
          = Some (with_tpc
                    (with_ticker s3 (mkTicker (int64 (tickID (ticker s3) + 1))
                                              (destinations (ticker s3))
                                              (waitGroup (ticker s3))))
                    TIdle)) as H4.
  { unfold step. rewrite Hcr3, Htp3, Htp2. simpl.
    by rewrite bool_decide_eq_true_2. }
  eexists. split.
  { unfold steady_tick. cbn [app run]. rewrite H1. simpl.
    rewrite run_app. unfold dispatch. rewrite Hrun2. simpl.
    rewrite run_app, Hrun3. simpl. rewrite H4. reflexivity. }
  split.
  - split; [done |]. split; [done |]. split; [done |].
    split; [eapply step_lined_up; [exact H4 | done] |].
    split; [| split].
    + simpl. apply Forall_lookup. intros p pr Hp. by apply (Hpcs3 p pr).
    + simpl. by rewrite Hw3, Hw2.
    + simpl. rewrite Hn3, Hw3, Hw2. simpl. fold n in Hlen. lia.
  - split; [simpl; by rewrite Hw3, Hw2 |].
    simpl. by rewrite Hid3, Htk2.
Qed.

Lemma steady_tick_returns_witness :
  exists s',
    run (steady_tick (length (procs linear_gooed))) linear_gooed = Some s' /\
    ready s' /\ world s' = world linear_gooed /\
    tickID (ticker s') = int64 (tickID (ticker linear_gooed) + 1).
Proof.
  apply (steady_tick_returns linear_gooed).
  split; [vm_compute; reflexivity |].
  split; [vm_compute; reflexivity |].
  split; [vm_compute; reflexivity |].
  split.
  { split; [vm_compute; reflexivity |].
    intros p pr H.
    do 5 (destruct p as [|p];
          [vm_compute in H; injection H as <-; split; reflexivity |]).
    vm_compute in H. discriminate H. }
  split; [vm_compute; repeat constructor |].
  split; [vm_compute; repeat constructor |].
  vm_compute. lia.
Defined.
